(** * devreplay: pattern abstraction from a before/after pair of token streams

    Shallow embedding of [src/diff/makePatterns.ts]: the identifier unifier
    ([collectCommonIdentifiers]), the token abstractor ([makeAbstractedCode]),
    the pattern normalizer ([formatPatterns], [countSpace]) and the drivers
    ([makePatterns], [makePatternsFromChunk], [makePatternsFromDiff]).

    Conventions of the embedding:
    - a JavaScript string is a [string] (a sequence of one-byte characters);
      the functions below only compare characters with the space and test
      them against ASCII classes, so nothing depends on wider characters;
    - [token.line] and [token.columns.*] are integers ([Z]);
    - a value that may be [undefined] is an [option];
    - a call that may throw returns a [result]; [await] is sequencing. *)

From Stdlib Require Import ZArith List Bool Ascii String Lia Arith Sorted.
From Stdlib Require Import Numbers.DecimalString.
Import ListNotations.

Local Open Scope string_scope.
Local Open Scope list_scope.

(** ** Exceptions *)

Inductive exn : Set :=
| TypeError   (* reading a property of [undefined] *)
| RangeError. (* [String.prototype.repeat] with a negative count *)

Inductive result (A : Type) : Type :=
| Ok (a : A)
| Throw (e : exn).
Arguments Ok {A} a.
Arguments Throw {A} e.

Definition bind {A B : Type} (m : result A) (k : A -> result B) : result B :=
  match m with
  | Ok a => k a
  | Throw e => Throw e
  end.

Notation "x <- m ;; k" := (bind m (fun x => k))
  (at level 61, m at next level, right associativity).

(** A [for ... of] loop whose body may throw: the state is threaded from
    left to right and the first exception leaves the loop. *)
Fixpoint forOf {A S : Type} (body : S -> A -> result S) (xs : list A) (s : S)
  : result S :=
  match xs with
  | [] => Ok s
  | x :: xs' => s' <- body s x ;; forOf body xs' s'
  end.

(** ** Strings *)

Module Str.

Definition space : ascii := " "%char.
Definition newline : ascii := ascii_of_nat 10.

(** [' '.repeat(n)] for a count that is already known not to be negative. *)
Fixpoint spaces (n : nat) : string :=
  match n with
  | O => ""
  | S n' => String space (spaces n')
  end.

(** [' '.repeat(count)]: a negative count is a RangeError. *)
Definition repeat_space (count : Z) : result string :=
  if (count <? 0)%Z then Throw RangeError else Ok (spaces (Z.to_nat count)).

(** [s.slice(n)] for a finite [n >= 0]. *)
Fixpoint drop (n : nat) (s : string) : string :=
  match n, s with
  | O, _ => s
  | S _, "" => ""
  | S n', String _ s' => drop n' s'
  end.

(** [s.includes(sub)] *)
Fixpoint includes (sub s : string) : bool :=
  String.prefix sub s ||
  match s with
  | "" => false
  | String _ s' => includes sub s'
  end.

(** [lines.join('\n')] *)
Fixpoint join (lines : list string) : string :=
  match lines with
  | [] => ""
  | [l] => l
  | l :: rest => l ++ String newline (join rest)
  end.

(** Decimal rendering of an index inside a template literal. *)
Definition of_nat (n : nat) : string :=
  NilEmpty.string_of_uint (Nat.to_uint n).

Definition isEmpty (s : string) : bool :=
  match s with "" => true | _ => false end.

Definition first (s : string) : option ascii :=
  match s with "" => None | String c _ => Some c end.

Fixpoint last (s : string) : option ascii :=
  match s with
  | "" => None
  | String c "" => Some c
  | String _ s' => last s'
  end.

End Str.

(** ** Regular expressions

    The fragment of JavaScript regular expressions used by [isAbstractable],
    with a backtracking matcher.  [String.prototype.match] only serves as a
    truth value there, so groups are not recorded. *)

Module Regex.

Definition range : Set := (ascii * ascii)%type.

Definition in_range (c : ascii) (r : range) : bool :=
  Nat.leb (nat_of_ascii (fst r)) (nat_of_ascii c)
  && Nat.leb (nat_of_ascii c) (nat_of_ascii (snd r)).

Definition in_ranges (rs : list range) (c : ascii) : bool :=
  existsb (in_range c) rs.

Definition is_upper (c : ascii) : bool := in_range c ("A"%char, "Z"%char).
Definition is_lower (c : ascii) : bool := in_range c ("a"%char, "z"%char).

Definition to_upper (c : ascii) : ascii :=
  if is_lower c then ascii_of_nat (nat_of_ascii c - 32) else c.
Definition to_lower (c : ascii) : ascii :=
  if is_upper c then ascii_of_nat (nat_of_ascii c + 32) else c.

(** A character class under the [i] flag: [c] is accepted when some member
    of the class has the same canonical (upper case) form as [c]. *)
Definition class_i (rs : list range) (c : ascii) : bool :=
  in_ranges rs c || in_ranges rs (to_upper c) || in_ranges rs (to_lower c).

Inductive t : Set :=
| Bol                          (* ^ *)
| Eol                          (* $ *)
| Class (rs : list range)      (* [...] *)
| Star (rs : list range)       (* [...]* *)
| Plus (rs : list range)       (* [...]+ *)
| Cat (r1 r2 : t)
| Alt (r1 r2 : t).             (* r1|r2 *)

(** Greedy iteration of a class; [k] is the rest of the match and is tried
    on every shorter repetition when the longer one fails. *)
Fixpoint star (p : ascii -> bool) (at0 : bool) (s : string)
         (k : bool -> string -> bool) : bool :=
  match s with
  | String c s' => if p c then star p false s' k || k at0 s else k at0 s
  | "" => k at0 s
  end.

(** [at0] tells whether the current position is index 0 of the input. *)
Fixpoint run (r : t) (at0 : bool) (s : string)
         (k : bool -> string -> bool) : bool :=
  match r with
  | Bol => at0 && k at0 s
  | Eol => Str.isEmpty s && k at0 s
  | Class rs =>
      match s with
      | String c s' => class_i rs c && k false s'
      | "" => false
      end
  | Star rs => star (class_i rs) at0 s k
  | Plus rs =>
      match s with
      | String c s' => class_i rs c && star (class_i rs) false s' k
      | "" => false
      end
  | Cat r1 r2 => run r1 at0 s (fun at0' s' => run r2 at0' s' k)
  | Alt r1 r2 => run r1 at0 s k || run r2 at0 s k
  end.

Definition accept (_ : bool) (_ : string) : bool := true.

(** An unanchored search: the pattern is tried at every index. *)
Fixpoint search (r : t) (at0 : bool) (s : string) : bool :=
  run r at0 s accept ||
  match s with
  | String _ s' => search r false s'
  | "" => false
  end.

(** [s.match(r)] as a truth value. *)
Definition matches (r : t) (s : string) : bool := search r true s.

End Regex.

(** ** Data model *)

(** [Token] of the external tokenizer, with the fields that section 3 of the
    specification lists and the source reads: [scopes] runs from the
    outermost scope to the innermost one. *)
Module Token.

Record columns : Set := mkColumns { start : Z; end_ : Z }.

Record t : Set := mk {
  value : string;
  scopes : list string;
  line : Z;
  cols : columns
}.

(** [token.scopes[token.scopes.length - 1]]: [undefined] on an empty
    array. *)
Definition innermost (token : t) : option string :=
  List.last (List.map Some (scopes token)) None.

End Token.

(** [interface Identifier].  The field [scope] is filled with an innermost
    scope, hence it carries the same [option]. *)
Module Identifier.

Record t : Set := mk { value : string; scope : option string }.

End Identifier.

(** Modelled from the spec: the declaration of [Pattern] in [../patterns] is
    not among the sources; section 3 gives it the three fields that
    [makePatterns] fills. *)
Record Pattern : Set := mkPattern {
  condition : list string;
  consequent : list string;
  identifiers : list string
}.

(** Modelled from the spec: the declaration of [Chunk] in [./diffparser] is
    not among the sources; section 3 gives it the three fields that
    [makePatternsFromChunk] reads. *)
Record Chunk : Set := mkChunk {
  deleted : list string;
  added : list string;
  source : string
}.

(** [===] on two innermost scopes. *)
Definition scope_eqb (a b : option string) : bool :=
  match a, b with
  | Some x, Some y => String.eqb x y
  | None, None => true
  | _, _ => false
  end.

(** ** checkInIdentifiers *)

Fixpoint checkFrom (identIndex : nat) (identifiers : list Identifier.t)
         (token : Token.t) : option nat :=
  match identifiers with
  | [] => None
  | identifier :: rest =>
      if String.eqb (Token.value token) (Identifier.value identifier)
         && scope_eqb (Token.innermost token) (Identifier.scope identifier)
      then Some identIndex
      else checkFrom (S identIndex) rest token
  end.

Definition checkInIdentifiers (identifiers : list Identifier.t)
           (token : Token.t) : option nat :=
  checkFrom 1 identifiers token.

(** ** isAbstractable *)

Definition letters : list Regex.range :=
  [("a"%char, "z"%char); ("A"%char, "Z"%char)].
Definition alnums : list Regex.range :=
  [("a"%char, "z"%char); ("A"%char, "Z"%char); ("0"%char, "9"%char)].
Definition digits : list Regex.range := [("0"%char, "9"%char)].

(** The pattern [/^(L)|D$/i] of the source, where [L] is a letter
    [a-zA-Z] followed by any number of [a-zA-Z0-9] and [D] is one or more
    [0-9]: the alternation binds weaker than the anchors, so the caret
    belongs to the left branch only and the dollar to the right branch
    only. *)
Definition isAlphanumeric_re : Regex.t :=
  Regex.Alt
    (Regex.Cat Regex.Bol (Regex.Cat (Regex.Class letters) (Regex.Star alnums)))
    (Regex.Cat (Regex.Plus digits) Regex.Eol).

(** The result is used as a truth value; [scope.includes] is only reached
    when the match is not [null], and throws on an [undefined] scope. *)
Definition isAbstractable (token : Token.t) : result bool :=
  let scope := Token.innermost token in
  let isAlphanumeric := Regex.matches isAlphanumeric_re (Token.value token) in
  if isAlphanumeric then
    match scope with
    | None => Throw TypeError
    | Some sc =>
        Ok (negb (Str.includes "keyword" sc)
            && negb (Str.includes "builtin" sc)
            && negb (Str.includes "storage" sc))
    end
  else Ok false.

(** ** collectCommonIdentifiers *)

Definition isUndefined {A : Type} (o : option A) : bool :=
  match o with None => true | Some _ => false end.

(** Body of the inner loop, for one [afterToken]. *)
Definition collectInner (beforeToken : Token.t)
           (identifiers : list Identifier.t) (afterToken : Token.t)
  : result (list Identifier.t) :=
  let beforeScope := Token.innermost beforeToken in
  let afterScope := Token.innermost afterToken in
  if String.eqb (Token.value beforeToken) (Token.value afterToken)
     && scope_eqb beforeScope afterScope
     && isUndefined (checkInIdentifiers identifiers beforeToken)
  then
    abstractable <- isAbstractable beforeToken ;;
    if abstractable
    then Ok (identifiers
             ++ [Identifier.mk (Token.value beforeToken) beforeScope])
    else Ok identifiers
  else Ok identifiers.

(** Body of the outer loop, for one [beforeToken]. *)
Definition collectOuter (afterTokens : list Token.t)
           (identifiers : list Identifier.t) (beforeToken : Token.t)
  : result (list Identifier.t) :=
  forOf (collectInner beforeToken) afterTokens identifiers.

Definition collectCommonIdentifiers (beforeTokens afterTokens : list Token.t)
  : result (list Identifier.t) :=
  forOf (collectOuter afterTokens) beforeTokens [].

(** ** makeAbstractedCode *)

(** The loop variables of [makeAbstractedCode]. *)
Record absState : Set := mkAbs {
  patterns : list string;
  previousPosition : Z;
  previousLine : Z;
  lineContents : string
}.

(** The text of a [scopes[...]] read inside a template literal. *)
Definition scopeText (scope : option string) : string :=
  match scope with Some sc => sc | None => "undefined" end.

(** The template literal of the source: a dollar and an opening brace, the
    index, a colon, the innermost scope, a closing brace. *)
Definition placeholder (identIndex : nat) (scope : option string) : string :=
  "${" ++ Str.of_nat identIndex ++ ":" ++ scopeText scope ++ "}".

(** What a token contributes to its line: a placeholder when it is one of
    the identifiers, its own text otherwise. *)
Definition tokenText (identifiers : list Identifier.t) (token : Token.t)
  : string :=
  match checkInIdentifiers identifiers token with
  | Some identIndex => placeholder identIndex (Token.innermost token)
  | None => Token.value token
  end.

(** The two tests at the head of the loop body: the first token fixes
    [previousLine]; a change of line flushes the line under construction. *)
Definition absEnter (st : absState) (token : Token.t) : absState :=
  let previousLine1 :=
    if (previousLine st =? 0)%Z then Token.line token else previousLine st in
  if negb (Token.line token =? previousLine1)%Z
  then mkAbs (patterns st ++ [lineContents st]) 1 (Token.line token) ""
  else mkAbs (patterns st) (previousPosition st) previousLine1
             (lineContents st).

Definition absStep (identifiers : list Identifier.t) (st : absState)
           (token : Token.t) : result absState :=
  let st1 := absEnter st token in
  let spaceNum := (Token.start (Token.cols token) - previousPosition st1)%Z in
  gap <- Str.repeat_space spaceNum ;;
  Ok (mkAbs (patterns st1)
            (Token.end_ (Token.cols token))
            (previousLine st1)
            (lineContents st1 ++ gap ++ tokenText identifiers token)).

Definition absInit : absState := mkAbs [] 1 0 "".

Definition makeAbstractedCode (tokens : list Token.t)
           (identifiers : list Identifier.t) : result (list string) :=
  st <- forOf (absStep identifiers) tokens absInit ;;
  Ok (patterns st ++ [lineContents st]).

(** ** isEmptyPattern *)

Definition isEmptyPattern (pattern : list string) : bool :=
  match pattern with
  | [l] => Str.isEmpty l
  | _ => false
  end.

(** ** countSpace and formatPatterns *)

(** The numbers that [countSpace] can return: a count, or [Infinity], which
    is what [Math.min()] gives without arguments. *)
Inductive count : Set :=
| Fin (n : nat)
| Infinity.

Definition Math_min2 (a b : count) : count :=
  match a, b with
  | Fin x, Fin y => Fin (Nat.min x y)
  | Fin x, Infinity => Fin x
  | Infinity, b => b
  end.

(** [Math.min(...spaces)] *)
Definition Math_min (spaces : list nat) : count :=
  fold_left (fun m n => Math_min2 m (Fin n)) spaces Infinity.

(** The inner loop of [countSpace]: count characters up to the first one
    that is not a space. *)
Fixpoint leadingSpaces (patternLine : string) : nat :=
  match patternLine with
  | String c rest =>
      if Ascii.eqb c Str.space then S (leadingSpaces rest) else O
  | "" => O
  end.

(** The outer loop of [countSpace]: empty lines are skipped. *)
Definition countStep (spaces : list nat) (patternLine : string) : list nat :=
  if Str.isEmpty patternLine then spaces
  else spaces ++ [leadingSpaces patternLine].

Definition countSpace (patternLines : list string) : count :=
  Math_min (fold_left countStep patternLines []).

(** [line.slice(minSpace)]: past the end of the line the result is empty. *)
Definition slice (minSpace : count) (line : string) : string :=
  match minSpace with
  | Fin n => Str.drop n line
  | Infinity => ""
  end.

Definition formatPatterns (conditon consequent : list string)
  : list string * list string :=
  let minSpace := Math_min2 (countSpace conditon) (countSpace consequent) in
  let formatCondition :=
    fold_left (fun acc line => acc ++ [slice minSpace line]) conditon [] in
  let formatConsequent :=
    fold_left (fun acc line => acc ++ [slice minSpace line]) consequent [] in
  (formatCondition, formatConsequent).

(** ** Drivers *)

Section Drivers.

(** The tokenizer and the diff parser are external: [tokenize text source]
    gives the token stream or [undefined], [makeDiffObj diff] the chunks. *)
Variable tokenize : string -> string -> option (list Token.t).
Variable makeDiffObj : string -> list Chunk.

Definition makePatterns (before after source : option string)
  : result (option Pattern) :=
  match before, after, source with
  | Some before, Some after, Some source =>
      match tokenize before source, tokenize after source with
      | Some beforeTokens, Some afterTokens =>
          identifiers <- collectCommonIdentifiers beforeTokens afterTokens ;;
          conditionPatterns <- makeAbstractedCode beforeTokens identifiers ;;
          consequentPatterns <- makeAbstractedCode afterTokens identifiers ;;
          let '(condition, consequent) :=
            formatPatterns conditionPatterns consequentPatterns in
          Ok (Some (mkPattern condition consequent
                              (map Identifier.value identifiers)))
      | _, _ => Ok None
      end
  | _, _, _ => Ok None
  end.

Definition makePatternsFromChunk (chunk : Chunk) : result (option Pattern) :=
  makePatterns (Some (Str.join (deleted chunk)))
               (Some (Str.join (added chunk)))
               (Some (source chunk)).

(** Body of the loop of [makePatternsFromDiff]. *)
Definition diffStep (patterns : list Pattern) (chunk : Chunk)
  : result (list Pattern) :=
  pattern <- makePatternsFromChunk chunk ;;
  match pattern with
  | Some p =>
      if negb (isEmptyPattern (condition p))
         && negb (isEmptyPattern (consequent p))
      then Ok (patterns ++ [p])
      else Ok patterns
  | None => Ok patterns
  end.

Definition makePatternsFromDiff (diff : string) : result (list Pattern) :=
  forOf diffStep (makeDiffObj diff) [].

End Drivers.

(** ** Definitions that follow the wording of the specification *)

(** "alphanumeric starting with a letter, or a pure digit run": the shape is
    a property of the whole value. *)
Module Shape.

Definition isLetter (c : ascii) : bool := Regex.in_ranges letters c.
Definition isDigit (c : ascii) : bool := Regex.in_ranges digits c.
Definition isAlnum (c : ascii) : bool := isLetter c || isDigit c.

Fixpoint all (p : ascii -> bool) (s : string) : bool :=
  match s with
  | "" => true
  | String c s' => p c && all p s'
  end.

Definition identifierLike (value : string) : bool :=
  match value with
  | "" => false
  | String c rest => (isLetter c && all isAlnum rest) || all isDigit value
  end.

Definition startsWithLetter (value : string) : bool :=
  match Str.first value with Some c => isLetter c | None => false end.

Definition endsWithDigit (value : string) : bool :=
  match Str.last value with Some c => isDigit c | None => false end.

End Shape.

(** "its innermost scope does not indicate a language keyword, a builtin, or
    a storage qualifier" *)
Definition reservedScope (sc : string) : bool :=
  Str.includes "keyword" sc || Str.includes "builtin" sc
  || Str.includes "storage" sc.

(** An identifier with a scope that is none of the reserved ones. *)
Definition freeScope (id : Identifier.t) : Prop :=
  exists sc, Identifier.scope id = Some sc /\ reservedScope sc = false.

(** The unifier as section 4.1 words it: a before-token is appended when
    some after-token has its value and innermost scope, its pair is not yet
    in the list, and it is abstractable. *)
Module Unify.

Definition sameKey (b a : Token.t) : bool :=
  String.eqb (Token.value b) (Token.value a)
  && scope_eqb (Token.innermost b) (Token.innermost a).

Definition occursIn (afterTokens : list Token.t) (b : Token.t) : bool :=
  existsb (sameKey b) afterTokens.

Definition known (acc : list Identifier.t) (b : Token.t) : bool :=
  existsb (fun i => String.eqb (Token.value b) (Identifier.value i)
                    && scope_eqb (Token.innermost b) (Identifier.scope i))
          acc.

Definition abstractable (b : Token.t) : bool :=
  match isAbstractable b with Ok true => true | _ => false end.

Definition step (afterTokens : list Token.t) (acc : list Identifier.t)
           (b : Token.t) : list Identifier.t :=
  if occursIn afterTokens b && negb (known acc b) && abstractable b
  then acc ++ [Identifier.mk (Token.value b) (Token.innermost b)]
  else acc.

Definition unify (beforeTokens afterTokens : list Token.t)
  : list Identifier.t :=
  fold_left (step afterTokens) beforeTokens [].

End Unify.

(** The normalizer as section 4.3 words it: the minimum leading-space count
    of a side over its non-empty lines, undefined when it has none, and the
    overall minimum resolved from whichever side has one. *)
Module Normal.

Definition nonEmpty (l : string) : bool := negb (Str.isEmpty l).

Definition minLeading (lines : list string) : option nat :=
  match filter nonEmpty lines with
  | [] => None
  | l :: ls =>
      Some (fold_right Nat.min (leadingSpaces l) (map leadingSpaces ls))
  end.

Definition commonIndent (conditionLines consequentLines : list string)
  : option nat :=
  match minLeading conditionLines, minLeading consequentLines with
  | Some a, Some b => Some (Nat.min a b)
  | Some a, None => Some a
  | None, Some b => Some b
  | None, None => None
  end.

(** The number that stands for an optional minimum. *)
Definition toCount (m : option nat) : count :=
  match m with Some n => Fin n | None => Infinity end.

(** Prepending [k] spaces to every line. *)
Definition indent (k : nat) (lines : list string) : list string :=
  map (fun l => (Str.spaces k ++ l)%string) lines.

(** A line has ink when one of its characters is not a space. *)
Fixpoint hasInk (l : string) : bool :=
  match l with
  | "" => false
  | String c rest => negb (Ascii.eqb c Str.space) || hasInk rest
  end.

End Normal.

(** Number of distinct [line] values of a token stream. *)
Definition distinctLines (tokens : list Token.t) : nat :=
  List.length (nodup Z.eq_dec (map Token.line tokens)).

(** The tokens of a stream that lie on line [ln]. *)
Definition onLine (ln : Z) (tokens : list Token.t) : list Token.t :=
  filter (fun t => (Token.line t =? ln)%Z) tokens.

(** The loop state without its finished lines. *)
Definition openLine (st : absState) : absState :=
  mkAbs [] (previousPosition st) (previousLine st) (lineContents st).

(** [text] is what the loop makes of the tokens of line [ln]: continuing
    the line under construction when [ln] is the line of [st], starting
    afresh otherwise. *)
Definition lineRun (ids : list Identifier.t) (st : absState)
           (tokens : list Token.t) (ln : Z) (text : string) : Prop :=
  (r <- forOf (absStep ids) (onLine ln tokens)
          (if (ln =? previousLine st)%Z then openLine st else absInit) ;;
   Ok (patterns r ++ [lineContents r])) = Ok [text].

(** Layout of a token stream as a tokenizer produces it: lines are numbered
    from a non-zero origin, columns from 1, and a token starts no earlier
    than the end of its predecessor on the same line. *)
Module Layout.

Definition placed (t : Token.t) : Prop :=
  Token.line t <> 0%Z /\ (1 <= Token.start (Token.cols t))%Z.

Definition follows (t u : Token.t) : Prop :=
  Token.line t = Token.line u ->
  (Token.end_ (Token.cols t) <= Token.start (Token.cols u))%Z.

Fixpoint chained (tokens : list Token.t) : Prop :=
  match tokens with
  | t :: ((u :: _) as rest) => follows t u /\ chained rest
  | _ => True
  end.

Definition laidOut (tokens : list Token.t) : Prop :=
  Forall placed tokens /\ chained tokens.

Definition scoped (tokens : list Token.t) : Prop :=
  Forall (fun t => Token.scopes t <> []) tokens.

(** A tokenizer all of whose streams are scoped and laid out. *)
Definition sound (tokenize : string -> string -> option (list Token.t))
  : Prop :=
  forall text source tokens,
    tokenize text source = Some tokens -> scoped tokens /\ laidOut tokens.

End Layout.

(** The cursor is not past the start of [token] once the head of the loop
    body has run. *)
Definition ready (st : absState) (token : Token.t) : Prop :=
  previousLine st = 0%Z \/ previousLine st = Token.line token ->
  (previousPosition st <= Token.start (Token.cols token))%Z.

(** A pattern that the diff-level driver keeps. *)
Definition kept (p : Pattern) : bool :=
  negb (isEmptyPattern (condition p)) && negb (isEmptyPattern (consequent p)).

(** The patterns among the per-chunk results, in chunk order. *)
Fixpoint defined (results : list (option Pattern)) : list Pattern :=
  match results with
  | [] => []
  | Some p :: rest => p :: defined rest
  | None :: rest => defined rest
  end.

(** ** Notions used by the further properties *)

(** The value+scope pair under which a token is unified. *)
Definition key (token : Token.t) : Identifier.t :=
  Identifier.mk (Token.value token) (Token.innermost token).

(** The value of a token is accepted by the pattern of [isAbstractable]. *)
Definition shaped (token : Token.t) : bool :=
  Shape.startsWithLetter (Token.value token)
  || Shape.endsWithDigit (Token.value token).

(** Number of places of a list of line numbers where the line changes. *)
Fixpoint lineChanges (lines : list Z) : nat :=
  match lines with
  | l :: ((l' :: _) as rest) =>
      (if (l' =? l)%Z then 0 else 1) + lineChanges rest
  | _ => 0
  end.

(** Equality of two value+scope pairs, as the membership tests decide it. *)
Definition sameId (x y : Identifier.t) : bool :=
  String.eqb (Identifier.value x) (Identifier.value y)
  && scope_eqb (Identifier.scope x) (Identifier.scope y).

(** A list without the repetitions of its elements: every element stays at
    its first occurrence. *)
Fixpoint firsts (l : list Identifier.t) : list Identifier.t :=
  match l with
  | [] => []
  | x :: l' => x :: filter (fun y => negb (sameId x y)) (firsts l')
  end.

(** A before-token that the unifier can take: it occurs among the
    after-tokens and [isAbstractable] is truthy on it. *)
Definition eligible (afterTokens : list Token.t) (b : Token.t) : bool :=
  Unify.occursIn afterTokens b && Unify.abstractable b.



(** The text of a run of tokens of one line, the cursor being at column
    [pos]: before each token the gap up to its start column, then its
    placeholder or its value. *)
Fixpoint renderLine (ids : list Identifier.t) (pos : Z)
         (tokens : list Token.t) : string :=
  match tokens with
  | [] => ""
  | t :: rest =>
      (Str.spaces (Z.to_nat (Token.start (Token.cols t) - pos))
       ++ tokenText ids t
       ++ renderLine ids (Token.end_ (Token.cols t)) rest)%string
  end.

(** What a per-chunk result adds to the list of [makePatternsFromDiff]. *)
Definition contribution (r : option Pattern) : list Pattern :=
  match r with
  | Some p => if kept p then [p] else []
  | None => []
  end.

(** ** Sample inputs *)

Module Sample.

Definition tok (v : string) (sc : list string) (l s e : Z) : Token.t :=
  Token.mk v sc l (Token.mkColumns s e).

(** The tokens of [  foo( x] on line 1 and [if  x] on line 2. *)
Definition before : list Token.t :=
  [ tok "foo" ["source.js"; "entity.name.function"] 1 3 6;
    tok "(" ["source.js"; "punctuation"] 1 6 7;
    tok "x" ["source.js"; "variable.other"] 1 8 9;
    tok "if" ["source.js"; "keyword.control"] 2 1 3;
    tok "x" ["source.js"; "variable.other"] 2 5 6 ].

(** The tokens of [x foo] on line 1 and [if] on line 2. *)
Definition after : list Token.t :=
  [ tok "x" ["source.js"; "variable.other"] 1 1 2;
    tok "foo" ["source.js"; "entity.name.function"] 1 3 6;
    tok "if" ["source.js"; "keyword.control"] 2 1 3 ].

Definition ids : list Identifier.t :=
  [ Identifier.mk "foo" (Some "entity.name.function");
    Identifier.mk "x" (Some "variable.other") ].

(** The pattern of [before] and [after]. *)
Definition pattern : Pattern :=
  mkPattern
    ["  ${1:entity.name.function}( ${2:variable.other}";
     "if  ${2:variable.other}"]
    ["${2:variable.other} ${1:entity.name.function}"; "if"]
    ["foo"; "x"].

Definition beforeLines : list string := ["  foo( x"; "if  x"].
Definition afterLines : list string := ["x foo"; "if"].

(** A tokenizer that knows these two texts and the empty one. *)
Definition tokenize (text source : string) : option (list Token.t) :=
  if String.eqb text (Str.join beforeLines) then Some before
  else if String.eqb text (Str.join afterLines) then Some after
  else if String.eqb text "" then Some []
  else None.

(** A diff parser that yields the same three chunks for every diff: one
    with content, one whose two sides are empty, one that the tokenizer
    rejects. *)
Definition makeDiffObj (_ : string) : list Chunk :=
  [ mkChunk beforeLines afterLines "javascript";
    mkChunk [] [] "javascript";
    mkChunk ["?"] afterLines "javascript" ].

(** A diff parser that yields the chunk with content once per character
    of the diff. *)
Definition chunksOf (diff : string) : list Chunk :=
  repeat (mkChunk beforeLines afterLines "javascript") (String.length diff).

(** A tokenizer that turns any text into one token at line 1, column 1. *)
Definition tokenize1 (text source : string) : option (list Token.t) :=
  Some [tok text [source] 1 1 (1 + Z.of_nat (String.length text))].

End Sample.

(** * Proofs *)

(** ** Loops and results *)

Lemma bind_Ok_inv {A B : Type} (m : result A) (k : A -> result B) (b : B) :
  bind m k = Ok b -> exists a, m = Ok a /\ k a = Ok b.
Proof.
  destruct m as [a|e]; simpl; intros H; [eauto | discriminate].
Qed.

(** A loop whose body never throws is a left fold. *)
Lemma forOf_pure {A S : Type} (f : S -> A -> S) (body : S -> A -> result S)
      (xs : list A) :
  (forall s x, In x xs -> body s x = Ok (f s x)) ->
  forall s, forOf body xs s = Ok (fold_left f xs s).
Proof.
  induction xs as [|x xs IH]; simpl; intros Hb s; trivial.
  rewrite Hb by auto. simpl. apply IH. auto.
Qed.

(** Pushing every element through [f] is [map]. *)
Lemma fold_push_map {A B : Type} (f : A -> B) (xs : list A) (acc : list B) :
  fold_left (fun acc x => acc ++ [f x]) xs acc = acc ++ map f xs.
Proof.
  revert acc; induction xs as [|x xs IH]; simpl; intros acc.
  - now rewrite app_nil_r.
  - rewrite IH, <- app_assoc. reflexivity.
Qed.

(** ** Strings *)

Lemma isEmpty_false (s : string) : Str.isEmpty s = false <-> s <> "".
Proof. destruct s; simpl; split; congruence. Qed.

Lemma drop_0 (s : string) : Str.drop 0 s = s.
Proof. destruct s; reflexivity. Qed.

Lemma drop_spaces (k n : nat) (s : string) :
  Str.drop (k + n) (Str.spaces k ++ s) = Str.drop n s.
Proof. induction k; simpl; auto. Qed.

Lemma leadingSpaces_spaces (k : nat) (s : string) :
  leadingSpaces (Str.spaces k ++ s) = k + leadingSpaces s.
Proof. induction k; simpl; auto. Qed.

(** A line starts with as many spaces as [leadingSpaces] counts. *)
Lemma leadingSpaces_split (n : nat) (s : string) :
  n <= leadingSpaces s -> s = (Str.spaces n ++ Str.drop n s)%string.
Proof.
  revert s; induction n as [|n IH]; intros s Hn.
  - now rewrite drop_0.
  - destruct s as [|c s]; simpl in Hn; [lia|].
    destruct (Ascii.eqb c Str.space) eqn:Hc; [|lia].
    apply Ascii.eqb_eq in Hc; subst c. simpl. f_equal. apply IH. lia.
Qed.

Lemma leadingSpaces_drop (n : nat) (s : string) :
  n <= leadingSpaces s -> leadingSpaces (Str.drop n s) = leadingSpaces s - n.
Proof.
  revert s; induction n as [|n IH]; intros s Hn.
  - rewrite drop_0. lia.
  - destruct s as [|c s]; simpl in *; [lia|].
    destruct (Ascii.eqb c Str.space); [|lia]. rewrite IH; lia.
Qed.

Lemma scope_eqb_eq (a b : option string) : scope_eqb a b = true <-> a = b.
Proof.
  destruct a, b; simpl; split; try congruence.
  - intros H; apply String.eqb_eq in H; congruence.
  - intros H; inversion H; apply String.eqb_refl.
Qed.

Lemma scope_eqb_refl (a : option string) : scope_eqb a a = true.
Proof. now apply scope_eqb_eq. Qed.

(** ** The regular expression of [isAbstractable] *)

Lemma star_accept (p : ascii -> bool) (at0 : bool) (s : string) :
  Regex.star p at0 s Regex.accept = true.
Proof.
  revert at0; induction s as [|c s IH]; simpl; intros at0; trivial.
  destruct (p c); trivial. now rewrite IH.
Qed.

(** Followed by the end of input, a starred class succeeds exactly when it
    can consume everything that is left. *)
Lemma star_to_end (p : ascii -> bool) (at0 : bool) (s : string) :
  Regex.star p at0 s (fun a s' => Str.isEmpty s' && Regex.accept a s')
  = Shape.all p s.
Proof.
  revert at0; induction s as [|c s IH]; simpl; intros at0; trivial.
  destruct (p c); simpl; trivial. rewrite IH. apply orb_false_r.
Qed.

Lemma class_i_letters (c : ascii) :
  Regex.class_i letters c = Shape.isLetter c.
Proof. destruct c as [[] [] [] [] [] [] [] []]; reflexivity. Qed.

Lemma class_i_digits (c : ascii) :
  Regex.class_i digits c = Shape.isDigit c.
Proof. destruct c as [[] [] [] [] [] [] [] []]; reflexivity. Qed.

Lemma all_ext (p q : ascii -> bool) (s : string) :
  (forall c, p c = q c) -> Shape.all p s = Shape.all q s.
Proof. intros H; induction s; simpl; congruence. Qed.

Lemma all_last (p : ascii -> bool) (s : string) :
  s <> "" -> Shape.all p s = true ->
  match Str.last s with Some c => p c | None => false end = true.
Proof.
  induction s as [|c s IH]; intros Hne Hall; [congruence|].
  simpl in Hall. apply andb_true_iff in Hall as [Hc Hs].
  destruct s as [|c' s']; [exact Hc|].
  change (Str.last (String c (String c' s'))) with (Str.last (String c' s')).
  apply IH; [discriminate | exact Hs].
Qed.

(** One attempt at a fixed index: the left branch needs index 0 and a
    letter there, the right branch needs digits up to the end. *)
Lemma run_isAlphanumeric (at0 : bool) (s : string) :
  Regex.run isAlphanumeric_re at0 s Regex.accept
  = (at0 && Shape.startsWithLetter s)
    || (negb (Str.isEmpty s) && Shape.all Shape.isDigit s).
Proof.
  unfold isAlphanumeric_re. simpl Regex.run.
  f_equal.
  - destruct s as [|c s]; simpl; trivial.
    rewrite star_accept, class_i_letters, andb_true_r. reflexivity.
  - destruct s as [|c s]; simpl; trivial.
    rewrite star_to_end, class_i_digits.
    now rewrite (all_ext _ _ s class_i_digits).
Qed.

Lemma search_isAlphanumeric (at0 : bool) (s : string) :
  Regex.search isAlphanumeric_re at0 s
  = (at0 && Shape.startsWithLetter s) || Shape.endsWithDigit s.
Proof.
  revert at0; induction s as [|c s IH]; intros at0.
  - simpl. destruct at0; reflexivity.
  - cbn [Regex.search]. rewrite run_isAlphanumeric, IH.
    cbn [andb orb Str.isEmpty negb].
    rewrite <- orb_assoc. f_equal.
    destruct s as [|c' s'].
    + cbn. now rewrite andb_true_r, orb_false_r.
    + assert (Hl : Shape.endsWithDigit (String c (String c' s'))
                   = Shape.endsWithDigit (String c' s')) by reflexivity.
      rewrite Hl.
      destruct (Shape.all Shape.isDigit (String c (String c' s'))) eqn:Hall;
        [|reflexivity].
      cbn [Shape.all] in Hall. apply andb_true_iff in Hall as [_ Hall].
      unfold Shape.endsWithDigit.
      now rewrite (all_last Shape.isDigit (String c' s')).
Qed.

(** The pattern accepts a value as soon as it starts with a letter or ends
    with a digit; what lies in between is not inspected. *)
Lemma isAlphanumeric_matches (value : string) :
  Regex.matches isAlphanumeric_re value
  = Shape.startsWithLetter value || Shape.endsWithDigit value.
Proof. unfold Regex.matches. now rewrite search_isAlphanumeric. Qed.

(** Every value of the shape the specification describes is accepted. *)
Lemma identifierLike_matches (value : string) :
  Shape.identifierLike value = true ->
  Regex.matches isAlphanumeric_re value = true.
Proof.
  rewrite isAlphanumeric_matches. destruct value as [|c s]; [discriminate|].
  unfold Shape.identifierLike. intros H.
  apply orb_true_iff in H as [H|H]; apply orb_true_iff.
  - left. apply andb_true_iff in H as [H _]. exact H.
  - right. unfold Shape.endsWithDigit.
    apply all_last; [discriminate | exact H].
Qed.

(** [isAbstractable] in closed form. *)
Lemma isAbstractable_eq (token : Token.t) :
  isAbstractable token =
  if Shape.startsWithLetter (Token.value token)
     || Shape.endsWithDigit (Token.value token)
  then match Token.innermost token with
       | Some sc => Ok (negb (reservedScope sc))
       | None => Throw TypeError
       end
  else Ok false.
Proof.
  unfold isAbstractable. rewrite isAlphanumeric_matches.
  destruct (_ || _); trivial. destruct (Token.innermost token); trivial.
  unfold reservedScope. now rewrite !negb_orb.
Qed.

(** C2: the claim asks for the whole value to be identifier- or
    number-shaped; [isAbstractable] accepts the text of a string literal,
    which merely starts with a letter, and an operator followed by a digit,
    which merely ends with one, while neither has the shape. *)
Theorem isAbstractable_accepts_partial_shape :
  isAbstractable
    (Sample.tok "hello world" ["source.js"; "string.quoted.double.js"] 1 2 13)
  = Ok true
  /\ Shape.identifierLike "hello world" = false
  /\ isAbstractable (Sample.tok "+1" ["source.js"] 1 1 3) = Ok true
  /\ Shape.identifierLike "+1" = false.
Proof. repeat split; reflexivity. Qed.

(** ** checkInIdentifiers *)

Lemma innermost_Some (token : Token.t) :
  Token.scopes token <> [] -> exists sc, Token.innermost token = Some sc.
Proof.
  unfold Token.innermost. induction (Token.scopes token) as [|s l IH].
  - congruence.
  - intros _. destruct l as [|s' l']; [now exists s|].
    apply IH. discriminate.
Qed.

(** A found index points at the entry with the token's value and scope;
    the index counts from [identIndex]. *)
Lemma checkFrom_Some (k : nat) (ids : list Identifier.t) (token : Token.t)
      (i : nat) :
  checkFrom k ids token = Some i ->
  k <= i < k + List.length ids
  /\ nth_error ids (i - k)
     = Some (Identifier.mk (Token.value token) (Token.innermost token)).
Proof.
  revert k; induction ids as [|id ids IH]; simpl; intros k H; [discriminate|].
  destruct (_ && _) eqn:Hm.
  - inversion H; subst i. split; [lia|].
    rewrite Nat.sub_diag. simpl.
    apply andb_true_iff in Hm as [Hv Hs].
    apply String.eqb_eq in Hv. apply scope_eqb_eq in Hs.
    destruct id as [v s]; simpl in *. congruence.
  - apply IH in H as [Hr Hn]. split; [lia|].
    replace (i - k) with (S (i - S k)) by lia. exact Hn.
Qed.

Lemma checkFrom_known (k : nat) (ids : list Identifier.t) (token : Token.t) :
  isUndefined (checkFrom k ids token) = negb (Unify.known ids token).
Proof.
  revert k; induction ids as [|id ids IH]; simpl; intros k; trivial.
  destruct (_ && _); simpl; auto.
Qed.

Lemma checkInIdentifiers_known (ids : list Identifier.t) (token : Token.t) :
  isUndefined (checkInIdentifiers ids token) = negb (Unify.known ids token).
Proof. apply checkFrom_known. Qed.

Lemma known_In (ids : list Identifier.t) (token : Token.t) :
  Unify.known ids token = true <->
  In (Identifier.mk (Token.value token) (Token.innermost token)) ids.
Proof.
  unfold Unify.known. rewrite existsb_exists. split.
  - intros ([v s] & Hin & Hm). simpl in Hm.
    apply andb_true_iff in Hm as [Hv Hs].
    apply String.eqb_eq in Hv. apply scope_eqb_eq in Hs. congruence.
  - intros Hin. eexists; split; [exact Hin|]. simpl.
    now rewrite String.eqb_refl, scope_eqb_refl.
Qed.

Lemma known_push (ids : list Identifier.t) (token : Token.t) :
  Unify.known
    (ids ++ [Identifier.mk (Token.value token) (Token.innermost token)]) token
  = true.
Proof. apply known_In, in_app_iff. right. now left. Qed.

(** ** collectCommonIdentifiers against the unifier of the specification *)

(** The inner loop appends at most once: after the first append the
    membership guard is closed for the rest of the scan. *)
Lemma collectOuter_eq (afterTokens : list Token.t) (acc : list Identifier.t)
      (b : Token.t) :
  collectOuter afterTokens acc b =
  if Unify.occursIn afterTokens b && negb (Unify.known acc b)
  then ab <- isAbstractable b ;;
       Ok (if ab : bool
           then acc ++ [Identifier.mk (Token.value b) (Token.innermost b)]
           else acc)
  else Ok acc.
Proof.
  unfold collectOuter.
  revert acc; induction afterTokens as [|a rest IH]; intros acc; trivial.
  cbn [forOf]. unfold collectInner at 1.
  rewrite checkInIdentifiers_known.
  change (String.eqb (Token.value b) (Token.value a)
          && scope_eqb (Token.innermost b) (Token.innermost a))
    with (Unify.sameKey b a).
  cbn [Unify.occursIn existsb].
  destruct (Unify.known acc b) eqn:Hk; cbn [negb].
  - rewrite andb_false_r. cbn [bind]. rewrite IH.
    unfold Unify.occursIn. rewrite Hk. cbn [negb]. now rewrite !andb_false_r.
  - rewrite !andb_true_r.
    destruct (Unify.sameKey b a) eqn:Hs; cbn [orb].
    + destruct (isAbstractable b) as [[|]|e]; cbn [bind]; trivial.
      * rewrite IH, known_push. cbn [negb]. now rewrite andb_false_r.
      * rewrite IH. destruct (_ && _); reflexivity.
    + cbn [bind]. rewrite IH. unfold Unify.occursIn.
      rewrite Hk. cbn [negb]. now rewrite !andb_true_r.
Qed.

Lemma collectOuter_Ok (afterTokens : list Token.t) (acc r : list Identifier.t)
      (b : Token.t) :
  collectOuter afterTokens acc b = Ok r -> r = Unify.step afterTokens acc b.
Proof.
  rewrite collectOuter_eq. unfold Unify.step, Unify.abstractable.
  destruct (Unify.occursIn afterTokens b && negb (Unify.known acc b)).
  - destruct (isAbstractable b) as [[|]|e]; simpl; congruence.
  - simpl. congruence.
Qed.

Lemma collectOuter_scoped (afterTokens : list Token.t)
      (acc : list Identifier.t) (b : Token.t) :
  Token.scopes b <> [] ->
  collectOuter afterTokens acc b = Ok (Unify.step afterTokens acc b).
Proof.
  intros Hsc. destruct (collectOuter afterTokens acc b) as [r|e] eqn:H.
  - f_equal. now apply collectOuter_Ok in H.
  - exfalso. rewrite collectOuter_eq in H.
    destruct (_ && _); [|discriminate].
    rewrite isAbstractable_eq in H.
    destruct (innermost_Some b Hsc) as [sc Hin]. rewrite Hin in H.
    destruct (_ || _); discriminate.
Qed.

Lemma collect_Ok_from (beforeTokens afterTokens : list Token.t)
      (acc ids : list Identifier.t) :
  forOf (collectOuter afterTokens) beforeTokens acc = Ok ids ->
  ids = fold_left (Unify.step afterTokens) beforeTokens acc.
Proof.
  revert acc; induction beforeTokens as [|b rest IH]; simpl; intros acc H.
  - congruence.
  - apply bind_Ok_inv in H as (s' & Hb & Hrest).
    apply collectOuter_Ok in Hb. subst s'. now apply IH.
Qed.

Lemma step_NoDup (afterTokens : list Token.t) (acc : list Identifier.t)
      (b : Token.t) :
  NoDup acc -> NoDup (Unify.step afterTokens acc b).
Proof.
  intros Hnd. unfold Unify.step.
  destruct (Unify.known acc b) eqn:Hk.
  - cbn [negb]. now rewrite andb_false_r.
  - destruct (_ && _); trivial.
    apply NoDup_app; trivial.
    + constructor; [intros [] | constructor].
    + intros x Hx [Hx'|[]]. subst x.
      apply known_In in Hx. congruence.
Qed.

Lemma unify_NoDup (beforeTokens afterTokens : list Token.t) :
  NoDup (Unify.unify beforeTokens afterTokens).
Proof.
  unfold Unify.unify.
  assert (H : forall acc, NoDup acc ->
                NoDup (fold_left (Unify.step afterTokens) beforeTokens acc)).
  { induction beforeTokens as [|b rest IH]; simpl; intros acc Hacc; trivial.
    apply IH. now apply step_NoDup. }
  apply H. constructor.
Qed.

Lemma step_freeScope (afterTokens : list Token.t) (acc : list Identifier.t)
      (b : Token.t) :
  Forall freeScope acc -> Forall freeScope (Unify.step afterTokens acc b).
Proof.
  intros Hacc. unfold Unify.step, Unify.abstractable.
  destruct (Unify.occursIn afterTokens b && negb (Unify.known acc b));
    trivial. cbn [andb].
  rewrite isAbstractable_eq.
  destruct (_ || _); trivial.
  destruct (Token.innermost b) as [sc|] eqn:Hin; trivial.
  destruct (reservedScope sc) eqn:Hr; trivial. cbn [negb].
  apply Forall_app. split; trivial.
  constructor; [|constructor]. exists sc. simpl. auto.
Qed.

Lemma unify_freeScope (beforeTokens afterTokens : list Token.t) :
  Forall freeScope (Unify.unify beforeTokens afterTokens).
Proof.
  unfold Unify.unify.
  assert (H : forall acc, Forall freeScope acc ->
     Forall freeScope (fold_left (Unify.step afterTokens) beforeTokens acc)).
  { induction beforeTokens as [|b rest IH]; simpl; intros acc Hacc; trivial.
    apply IH. now apply step_freeScope. }
  apply H. constructor.
Qed.

Lemma collect_freeScope (beforeTokens afterTokens : list Token.t)
      (ids : list Identifier.t) :
  collectCommonIdentifiers beforeTokens afterTokens = Ok ids ->
  Forall freeScope ids.
Proof.
  intros H. apply collect_Ok_from in H. subst ids. apply unify_freeScope.
Qed.

(** C5: the identifier unifier returns the list of the scan of section 4.1
    (before-tokens outside, after-tokens inside, a pair appended when value
    and innermost scope agree, the pair is new and the before-token is
    abstractable): whenever it returns, that list is its result; it returns
    whenever every before-token has an innermost scope; the list holds no
    value+scope pair twice. *)
Theorem collectCommonIdentifiers_unify
        (beforeTokens afterTokens : list Token.t) :
  (forall ids, collectCommonIdentifiers beforeTokens afterTokens = Ok ids ->
               ids = Unify.unify beforeTokens afterTokens)
  /\ (Layout.scoped beforeTokens ->
      collectCommonIdentifiers beforeTokens afterTokens
      = Ok (Unify.unify beforeTokens afterTokens))
  /\ NoDup (Unify.unify beforeTokens afterTokens).
Proof.
  split; [|split].
  - intros ids H. now apply collect_Ok_from in H.
  - intros Hsc. unfold collectCommonIdentifiers, Unify.unify.
    apply forOf_pure. intros s x Hx. apply collectOuter_scoped.
    unfold Layout.scoped in Hsc. rewrite Forall_forall in Hsc. auto.
  - apply unify_NoDup.
Qed.

Lemma collectCommonIdentifiers_unify_witness :
  collectCommonIdentifiers Sample.before Sample.after = Ok Sample.ids
  /\ NoDup Sample.ids.
Proof.
  destruct (collectCommonIdentifiers_unify Sample.before Sample.after)
    as (_ & Hret & Hnd).
  split.
  - rewrite Hret; [reflexivity|].
    unfold Layout.scoped, Sample.before.
    repeat constructor; discriminate.
  - exact Hnd.
Defined.

(** C9: a token whose innermost scope contains 'keyword', 'builtin' or
    'storage' is not among the unified identifiers of any pair of streams,
    so the abstractor writes its literal value: its text is the token's
    value, and the loop body does on it what it does with no identifiers at
    all. *)
Theorem reserved_token_stays_literal
        (beforeTokens afterTokens : list Token.t) (ids : list Identifier.t)
        (token : Token.t) (sc : string) :
  collectCommonIdentifiers beforeTokens afterTokens = Ok ids ->
  Token.innermost token = Some sc ->
  reservedScope sc = true ->
  checkInIdentifiers ids token = None
  /\ tokenText ids token = Token.value token
  /\ forall st, absStep ids st token = absStep [] st token.
Proof.
  intros Hids Hsc Hres.
  assert (Hnone : checkInIdentifiers ids token = None).
  { destruct (checkInIdentifiers ids token) as [i|] eqn:Hc; trivial.
    exfalso. apply checkFrom_Some in Hc as [_ Hn].
    apply nth_error_In in Hn.
    apply collect_freeScope in Hids. rewrite Forall_forall in Hids.
    destruct (Hids _ Hn) as (sc' & Hs & Hfree). simpl in Hs.
    congruence. }
  assert (Htext : tokenText ids token = Token.value token).
  { unfold tokenText. now rewrite Hnone. }
  repeat split; trivial.
  intros st. unfold absStep. now rewrite Htext.
Qed.

Lemma reserved_token_stays_literal_witness :
  tokenText Sample.ids
            (Sample.tok "if" ["source.js"; "keyword.control"] 2 1 3)
  = "if".
Proof.
  apply (reserved_token_stays_literal Sample.before Sample.after Sample.ids
           (Sample.tok "if" ["source.js"; "keyword.control"] 2 1 3)
           "keyword.control"); reflexivity.
Defined.

Lemma makePatterns_Some
      (tokenize : string -> string -> option (list Token.t))
      (before after source : option string) (p : Pattern) :
  makePatterns tokenize before after source = Ok (Some p) ->
  exists b a s bt at_ ids c q,
    before = Some b /\ after = Some a /\ source = Some s
    /\ tokenize b s = Some bt /\ tokenize a s = Some at_
    /\ collectCommonIdentifiers bt at_ = Ok ids
    /\ makeAbstractedCode bt ids = Ok c
    /\ makeAbstractedCode at_ ids = Ok q
    /\ (condition p, consequent p) = formatPatterns c q
    /\ identifiers p = map Identifier.value ids.
Proof.
  unfold makePatterns. intros H.
  destruct before as [b|]; [|discriminate].
  destruct after as [a|]; [|discriminate].
  destruct source as [s|]; [|discriminate].
  destruct (tokenize b s) as [bt|] eqn:Hb; [|discriminate].
  destruct (tokenize a s) as [at_|] eqn:Ha; [|discriminate].
  apply bind_Ok_inv in H as (ids & Hids & H).
  apply bind_Ok_inv in H as (c & Hc & H).
  apply bind_Ok_inv in H as (q & Hq & H).
  destruct (formatPatterns c q) as [c' q'] eqn:Hf.
  inversion H; subst p; simpl.
  exists b, a, s, bt, at_, ids, c, q. repeat split; auto.
Qed.

(** C1: in a pattern produced by [makePatterns], the lines are abstracted
    with the unified identifiers [ids] of the two streams, and whenever the
    abstractor writes the placeholder of index [i] for a token, then
    [1 <= i <= identifiers.length], [identifiers[i-1]] is the value of that
    token, and entry [i-1] of [ids] is the identifier with the token's value
    and innermost scope, the scope written in the placeholder. *)
Theorem placeholder_alignment
        (tokenize : string -> string -> option (list Token.t))
        (before after source : option string) (p : Pattern) :
  makePatterns tokenize before after source = Ok (Some p) ->
  exists ids bt at_ c q,
    collectCommonIdentifiers bt at_ = Ok ids
    /\ makeAbstractedCode bt ids = Ok c
    /\ makeAbstractedCode at_ ids = Ok q
    /\ (condition p, consequent p) = formatPatterns c q
    /\ identifiers p = map Identifier.value ids
    /\ forall token i,
         checkInIdentifiers ids token = Some i ->
         tokenText ids token = placeholder i (Token.innermost token)
         /\ 1 <= i <= List.length (identifiers p)
         /\ nth_error (identifiers p) (i - 1) = Some (Token.value token)
         /\ nth_error ids (i - 1)
            = Some (Identifier.mk (Token.value token) (Token.innermost token)).
Proof.
  intros H.
  apply makePatterns_Some in H
    as (b & a & s & bt & at_ & ids & c & q & _ & _ & _ & _ & _
        & Hids & Hc & Hq & Hf & Hi).
  exists ids, bt, at_, c, q. repeat (split; trivial).
  - unfold tokenText. now rewrite H.
  - apply checkFrom_Some in H. lia.
  - apply checkFrom_Some in H. rewrite Hi, length_map. simpl in H. lia.
  - apply checkFrom_Some in H as [_ Hn].
    rewrite Hi, nth_error_map, Hn. reflexivity.
  - now apply checkFrom_Some in H as [_ Hn].
Qed.

Lemma placeholder_alignment_witness :
  makePatterns Sample.tokenize (Some (Str.join Sample.beforeLines))
               (Some (Str.join Sample.afterLines))
               (Some "javascript") = Ok (Some Sample.pattern)
  /\ exists ids, identifiers Sample.pattern = map Identifier.value ids.
Proof.
  split; [reflexivity|].
  destruct (placeholder_alignment Sample.tokenize
              (Some (Str.join Sample.beforeLines))
              (Some (Str.join Sample.afterLines))
              (Some "javascript") Sample.pattern eq_refl)
    as (ids & bt & at_ & c & q & _ & _ & _ & _ & Hi & _).
  exists ids. exact Hi.
Defined.

(** ** countSpace and formatPatterns against the normalizer of the
       specification *)

Lemma countStep_fold (lines : list string) (acc : list nat) :
  fold_left countStep lines acc
  = acc ++ map leadingSpaces (filter Normal.nonEmpty lines).
Proof.
  revert acc; induction lines as [|l lines IH]; simpl; intros acc.
  - now rewrite app_nil_r.
  - rewrite IH. unfold countStep, Normal.nonEmpty.
    destruct (Str.isEmpty l); simpl; trivial.
    now rewrite <- app_assoc.
Qed.

Lemma min_fold_start (xs : list nat) (m x : nat) :
  fold_right Nat.min (Nat.min m x) xs = Nat.min x (fold_right Nat.min m xs).
Proof. induction xs as [|y xs IH]; simpl; lia. Qed.

Lemma Math_min_from (xs : list nat) (m : nat) :
  fold_left (fun a n => Math_min2 a (Fin n)) xs (Fin m)
  = Fin (fold_right Nat.min m xs).
Proof.
  revert m; induction xs as [|x xs IH]; simpl; intros m; trivial.
  now rewrite IH, min_fold_start.
Qed.

(** [countSpace] is the minimum of the specification, with [Infinity] for
    the minimum of no line at all. *)
Lemma countSpace_minLeading (lines : list string) :
  countSpace lines = Normal.toCount (Normal.minLeading lines).
Proof.
  unfold countSpace, Normal.minLeading, Math_min.
  rewrite countStep_fold. simpl.
  destruct (filter Normal.nonEmpty lines) as [|l ls]; simpl; trivial.
  apply Math_min_from.
Qed.

Lemma Math_min2_commonIndent (c q : list string) :
  Math_min2 (countSpace c) (countSpace q)
  = Normal.toCount (Normal.commonIndent c q).
Proof.
  rewrite !countSpace_minLeading. unfold Normal.commonIndent.
  destruct (Normal.minLeading c), (Normal.minLeading q); reflexivity.
Qed.

Lemma formatPatterns_eq (c q : list string) :
  formatPatterns c q
  = (map (slice (Normal.toCount (Normal.commonIndent c q))) c,
     map (slice (Normal.toCount (Normal.commonIndent c q))) q).
Proof.
  unfold formatPatterns. rewrite Math_min2_commonIndent.
  now rewrite !fold_push_map.
Qed.

(** *** The minimum: a lower bound that some line attains *)

Lemma min_fold_le (x : nat) (xs : list nat) :
  fold_right Nat.min x xs <= x
  /\ forall y, In y xs -> fold_right Nat.min x xs <= y.
Proof.
  induction xs as [|z xs [IHx IHy]]; simpl.
  - split; [lia | intros y []].
  - split; [lia|]. intros y [<-|Hy]; [lia|].
    specialize (IHy y Hy). lia.
Qed.

Lemma min_fold_in (x : nat) (xs : list nat) :
  In (fold_right Nat.min x xs) (x :: xs).
Proof.
  induction xs as [|z xs IH]; simpl; [now left|].
  destruct (Nat.min_spec z (fold_right Nat.min x xs)) as [[_ ->]|[_ ->]].
  - right; now left.
  - destruct IH as [IH|IH]; [now left | right; now right].
Qed.

Lemma nonEmpty_true (l : string) : Normal.nonEmpty l = true <-> l <> "".
Proof.
  unfold Normal.nonEmpty. rewrite negb_true_iff. apply isEmpty_false.
Qed.

Lemma minLeading_bound (lines : list string) (n : nat) :
  Normal.minLeading lines = Some n ->
  forall l, In l lines -> l <> "" -> n <= leadingSpaces l.
Proof.
  unfold Normal.minLeading. intros H l Hl Hne.
  assert (Hf : In l (filter Normal.nonEmpty lines)).
  { apply filter_In. split; trivial. now apply nonEmpty_true. }
  destruct (filter Normal.nonEmpty lines) as [|l0 ls]; [discriminate|].
  inversion H; subst n; clear H.
  destruct (min_fold_le (leadingSpaces l0) (map leadingSpaces ls)) as [H0 Hs].
  destruct Hf as [<-|Hf]; trivial.
  apply Hs. now apply in_map.
Qed.

Lemma minLeading_attained (lines : list string) (n : nat) :
  Normal.minLeading lines = Some n ->
  exists l, In l lines /\ l <> "" /\ leadingSpaces l = n.
Proof.
  unfold Normal.minLeading. intros H.
  destruct (filter Normal.nonEmpty lines) as [|l0 ls] eqn:Hf; [discriminate|].
  inversion H; subst n; clear H.
  assert (Hin : In (fold_right Nat.min (leadingSpaces l0)
                               (map leadingSpaces ls))
                   (map leadingSpaces (l0 :: ls))) by apply min_fold_in.
  apply in_map_iff in Hin as (l & Hl & Hin).
  rewrite <- Hf in Hin. apply filter_In in Hin as [Hin Hne].
  exists l. repeat split; trivial. now apply nonEmpty_true.
Qed.

Lemma minLeading_None (lines : list string) :
  Normal.minLeading lines = None <-> forall l, In l lines -> l = "".
Proof.
  unfold Normal.minLeading. split.
  - intros H l Hl. destruct l as [|ch l']; trivial. exfalso.
    assert (Hf : In (String ch l') (filter Normal.nonEmpty lines))
      by (apply filter_In; split; trivial).
    destruct (filter Normal.nonEmpty lines); [destruct Hf | discriminate].
  - intros H. destruct (filter Normal.nonEmpty lines) as [|l0 ls] eqn:Hf;
      trivial. exfalso.
    assert (Hin : In l0 (filter Normal.nonEmpty lines))
      by (rewrite Hf; now left).
    apply filter_In in Hin as [Hin Hne]. apply nonEmpty_true in Hne.
    auto.
Qed.

Lemma commonIndent_bound (c q : list string) (n : nat) :
  Normal.commonIndent c q = Some n ->
  forall l, In l (c ++ q) -> l <> "" -> n <= leadingSpaces l.
Proof.
  unfold Normal.commonIndent. intros H l Hl Hne.
  apply in_app_iff in Hl.
  destruct (Normal.minLeading c) as [a|] eqn:Hc;
    destruct (Normal.minLeading q) as [b|] eqn:Hq;
    inversion H; subst n; clear H; destruct Hl as [Hl|Hl];
    try (pose proof (minLeading_bound _ _ Hc l Hl Hne); lia);
    try (pose proof (minLeading_bound _ _ Hq l Hl Hne); lia).
  - apply minLeading_None with (l := l) in Hq; [contradiction | trivial].
  - apply minLeading_None with (l := l) in Hc; [contradiction | trivial].
Qed.

Lemma commonIndent_attained (c q : list string) (n : nat) :
  Normal.commonIndent c q = Some n ->
  exists l, In l (c ++ q) /\ l <> "" /\ leadingSpaces l = n.
Proof.
  unfold Normal.commonIndent. intros H.
  assert (Hl : forall l, In l c -> In l (c ++ q))
    by (intros; apply in_app_iff; now left).
  assert (Hr : forall l, In l q -> In l (c ++ q))
    by (intros; apply in_app_iff; now right).
  destruct (Normal.minLeading c) as [a|] eqn:Hc;
    destruct (Normal.minLeading q) as [b|] eqn:Hq;
    inversion H; subst n; clear H.
  - destruct (Nat.min_spec a b) as [[_ ->]|[_ ->]].
    + destruct (minLeading_attained _ _ Hc) as (l & ? & ? & ?); eauto.
    + destruct (minLeading_attained _ _ Hq) as (l & ? & ? & ?); eauto.
  - destruct (minLeading_attained _ _ Hc) as (l & ? & ? & ?); eauto.
  - destruct (minLeading_attained _ _ Hq) as (l & ? & ? & ?); eauto.
Qed.

Lemma commonIndent_None (c q : list string) :
  Normal.commonIndent c q = None <-> forall l, In l (c ++ q) -> l = "".
Proof.
  unfold Normal.commonIndent. split.
  - intros H l Hl. apply in_app_iff in Hl.
    destruct (Normal.minLeading c) eqn:Hc;
      destruct (Normal.minLeading q) eqn:Hq; try discriminate.
    destruct Hl;
      [apply (proj1 (minLeading_None c)) | apply (proj1 (minLeading_None q))];
      trivial.
  - intros H.
    assert (Hc : Normal.minLeading c = None).
    { apply minLeading_None. intros l Hl. apply H, in_app_iff. now left. }
    assert (Hq : Normal.minLeading q = None).
    { apply minLeading_None. intros l Hl. apply H, in_app_iff. now right. }
    now rewrite Hc, Hq.
Qed.

(** A bound that is attained is the common indentation. *)
Lemma commonIndent_unique (c q : list string) (n : nat) :
  (forall l, In l (c ++ q) -> l <> "" -> n <= leadingSpaces l) ->
  (exists l, In l (c ++ q) /\ l <> "" /\ leadingSpaces l = n) ->
  Normal.commonIndent c q = Some n.
Proof.
  intros Hb (l & Hl & Hne & Hn).
  destruct (Normal.commonIndent c q) as [m|] eqn:Hm.
  - f_equal.
    pose proof (commonIndent_bound _ _ _ Hm l Hl Hne).
    destruct (commonIndent_attained _ _ _ Hm) as (l' & Hl' & Hne' & Hm').
    specialize (Hb l' Hl' Hne'). lia.
  - exfalso. apply Hne. now apply (proj1 (commonIndent_None c q)).
Qed.

Lemma map_empty_lines (f : string -> string) (lines : list string) :
  (forall l, In l lines -> f l = l) -> map f lines = lines.
Proof.
  induction lines as [|l lines IH]; simpl; intros H; trivial.
  rewrite H, IH; auto.
Qed.

Lemma formatPatterns_Some (c q : list string) (n : nat) :
  Normal.commonIndent c q = Some n ->
  formatPatterns c q = (map (Str.drop n) c, map (Str.drop n) q).
Proof. intros Hn. now rewrite formatPatterns_eq, Hn. Qed.

Lemma formatPatterns_all_empty (c q : list string) :
  (forall l, In l (c ++ q) -> l = "") -> formatPatterns c q = (c, q).
Proof.
  intros Hall. rewrite formatPatterns_eq.
  rewrite (proj2 (commonIndent_None c q) Hall). simpl.
  f_equal; apply map_empty_lines; intros l Hl; symmetry;
    apply Hall, in_app_iff; auto.
Qed.

(** C6: the normalizer strips from every line of both sides exactly [n]
    leading characters, [n] being the minimum over both sides of each side's
    minimum leading-space count over its non-empty lines (resolved from the
    other side when one side has no non-empty line); every non-empty line
    starts with these [n] spaces; when all lines of both sides are empty the
    two sides come back unchanged. *)
Theorem formatPatterns_strips_common_indent (c q : list string) :
  (forall n, Normal.commonIndent c q = Some n ->
     formatPatterns c q = (map (Str.drop n) c, map (Str.drop n) q)
     /\ forall l, In l (c ++ q) -> l <> "" ->
                  l = (Str.spaces n ++ Str.drop n l)%string)
  /\ ((forall l, In l (c ++ q) -> l = "") -> formatPatterns c q = (c, q)).
Proof.
  split.
  - intros n Hn. split.
    + now apply formatPatterns_Some.
    + intros l Hl Hne. apply leadingSpaces_split.
      now apply (commonIndent_bound c q).
  - apply formatPatterns_all_empty.
Qed.

Lemma formatPatterns_strips_common_indent_witness :
  formatPatterns ["  a"; ""; "    b"] ["   c"] = (["a"; ""; "  b"], [" c"])
  /\ formatPatterns [""; ""] [""] = ([""; ""], [""]).
Proof.
  destruct (formatPatterns_strips_common_indent ["  a"; ""; "    b"] ["   c"])
    as [Hstrip _].
  destruct (formatPatterns_strips_common_indent [""; ""] [""]) as [_ Hsame].
  split.
  - apply (Hstrip 2). reflexivity.
  - apply Hsame. simpl. intuition congruence.
Defined.

(** *** Shifting every line by the same number of spaces *)

Lemma slice_Some (n : nat) : slice (Normal.toCount (Some n)) = Str.drop n.
Proof. reflexivity. Qed.

Lemma indent_app (k : nat) (c q : list string) :
  Normal.indent k (c ++ q) = Normal.indent k c ++ Normal.indent k q.
Proof. apply map_app. Qed.

Lemma drop_indent (k n : nat) (lines : list string) :
  map (Str.drop (k + n)) (Normal.indent k lines) = map (Str.drop n) lines.
Proof.
  unfold Normal.indent. rewrite map_map.
  apply map_ext. intros l. apply drop_spaces.
Qed.

Lemma spaces_nonEmpty (k : nat) (l : string) :
  l <> "" \/ 0 < k -> (Str.spaces k ++ l)%string <> "".
Proof.
  intros [H|H]; destruct k; simpl; trivial; try discriminate. lia.
Qed.

(** Shifting lines none of which is empty shifts the common indentation. *)
Lemma commonIndent_indent (k : nat) (c q : list string) (n : nat) :
  (forall l, In l (c ++ q) -> l <> "") ->
  Normal.commonIndent c q = Some n ->
  Normal.commonIndent (Normal.indent k c) (Normal.indent k q) = Some (k + n).
Proof.
  intros Hne Hn. apply commonIndent_unique.
  - intros l' Hl' _. rewrite <- indent_app in Hl'.
    apply in_map_iff in Hl' as (l & <- & Hl).
    rewrite leadingSpaces_spaces.
    pose proof (commonIndent_bound _ _ _ Hn l Hl (Hne l Hl)). lia.
  - destruct (commonIndent_attained _ _ _ Hn) as (l & Hl & Hl0 & Hln).
    exists (Str.spaces k ++ l)%string. repeat split.
    + rewrite <- indent_app. unfold Normal.indent.
      apply in_map_iff. now exists l.
    + apply spaces_nonEmpty. now left.
    + rewrite leadingSpaces_spaces. lia.
Qed.

(** C7 as amended: when no line of either side is empty, prepending the same
    number of spaces to every line of both sides does not change what the
    normalizer returns. *)
Theorem formatPatterns_indent_invariant (k : nat) (c q : list string) :
  (forall l, In l (c ++ q) -> l <> "") ->
  formatPatterns (Normal.indent k c) (Normal.indent k q) = formatPatterns c q.
Proof.
  intros Hne. rewrite !formatPatterns_eq.
  destruct (Normal.commonIndent c q) as [n|] eqn:Hn.
  - rewrite (commonIndent_indent k c q n Hne Hn), !slice_Some.
    now rewrite !drop_indent.
  - assert (Hc : c ++ q = []).
    { destruct (c ++ q) as [|l rest] eqn:Hcq; trivial. exfalso.
      apply (Hne l); [now left|].
      apply (proj1 (commonIndent_None c q) Hn). rewrite Hcq. now left. }
    apply app_eq_nil in Hc as [-> ->]. reflexivity.
Qed.

Lemma formatPatterns_indent_invariant_witness :
  formatPatterns (Normal.indent 3 [" a"; "b"]) (Normal.indent 3 ["  c"])
  = formatPatterns [" a"; "b"] ["  c"].
Proof.
  apply (formatPatterns_indent_invariant 3 [" a"; "b"] ["  c"]).
  simpl. intros l H. intuition (subst; discriminate).
Defined.

(** C7 as stated fails: with an empty line next to indented ones, the
    shifted empty line becomes the least indented line. *)
Lemma formatPatterns_indent_counterexample :
  formatPatterns (Normal.indent 2 [""; " a"]) (Normal.indent 2 [" b"])
  = ([""; " a"], [" b"])
  /\ formatPatterns [""; " a"] [" b"] = ([""; "a"], ["b"])
  /\ ~ (forall k c q,
          formatPatterns (Normal.indent k c) (Normal.indent k q)
          = formatPatterns c q).
Proof.
  split; [reflexivity|]. split; [reflexivity|].
  intros H. specialize (H 2 [""; " a"] [" b"]). discriminate H.
Qed.

(** With an empty line and a positive shift, the normalizer undoes the
    shift and nothing more. *)
Lemma formatPatterns_indent_empty_line (k : nat) (c q : list string) :
  0 < k -> In "" (c ++ q) ->
  formatPatterns (Normal.indent k c) (Normal.indent k q) = (c, q).
Proof.
  intros Hk Hin. rewrite formatPatterns_eq.
  assert (Hci : Normal.commonIndent (Normal.indent k c) (Normal.indent k q)
                = Some (k + 0)).
  { apply commonIndent_unique.
    - intros l' Hl' _. rewrite <- indent_app in Hl'.
      apply in_map_iff in Hl' as (l & <- & Hl).
      rewrite leadingSpaces_spaces. lia.
    - exists (Str.spaces k ++ "")%string. repeat split.
      + rewrite <- indent_app. unfold Normal.indent.
        apply in_map_iff. now exists "".
      + apply spaces_nonEmpty. now right.
      + now rewrite leadingSpaces_spaces. }
  rewrite Hci, !slice_Some, !drop_indent.
  f_equal; apply map_empty_lines; intros; apply drop_0.
Qed.

(** *** Normalizing twice *)

Lemma hasInk_drop (l : string) :
  Normal.hasInk l = true -> Str.drop (leadingSpaces l) l <> "".
Proof.
  induction l as [|ch l IH]; simpl; [discriminate|].
  destruct (Ascii.eqb ch Str.space); simpl; [exact IH | discriminate].
Qed.

(** C10 as amended: when every non-empty line holds a character that is not
    a space, normalizing the normalizer's output returns it unchanged. *)
Theorem formatPatterns_idempotent (c q : list string) :
  (forall l, In l (c ++ q) -> l <> "" -> Normal.hasInk l = true) ->
  formatPatterns (fst (formatPatterns c q)) (snd (formatPatterns c q))
  = formatPatterns c q.
Proof.
  intros Hink.
  destruct (Normal.commonIndent c q) as [n|] eqn:Hn.
  - rewrite (formatPatterns_Some c q n Hn). simpl.
    rewrite formatPatterns_eq.
    assert (H0 : Normal.commonIndent (map (Str.drop n) c) (map (Str.drop n) q)
                 = Some 0).
    { apply commonIndent_unique; [intros; lia|].
      destruct (commonIndent_attained _ _ _ Hn) as (l & Hl & Hl0 & Hln).
      exists (Str.drop n l). repeat split.
      - rewrite <- map_app. now apply in_map.
      - subst n. apply hasInk_drop. auto.
      - rewrite leadingSpaces_drop; lia. }
    rewrite H0, !slice_Some.
    f_equal; apply map_empty_lines; intros; apply drop_0.
  - pose proof (proj1 (commonIndent_None c q) Hn) as Hall.
    rewrite (formatPatterns_all_empty c q Hall). simpl.
    exact (formatPatterns_all_empty c q Hall).
Qed.

Lemma formatPatterns_idempotent_witness :
  formatPatterns (fst (formatPatterns ["  a"; ""; "    b"] ["   c"]))
                 (snd (formatPatterns ["  a"; ""; "    b"] ["   c"]))
  = formatPatterns ["  a"; ""; "    b"] ["   c"].
Proof.
  apply (formatPatterns_idempotent ["  a"; ""; "    b"] ["   c"]).
  simpl. intros l H Hne. intuition (subst; try reflexivity; congruence).
Defined.

(** C10 as stated fails: a line of spaces only that carries the minimum
    becomes empty, and the second pass no longer counts it. *)
Lemma formatPatterns_idempotent_counterexample :
  formatPatterns ["  "; "   a"] ["   b"] = ([""; " a"], [" b"])
  /\ formatPatterns [""; " a"] [" b"] = ([""; "a"], ["b"])
  /\ ~ (forall c q,
          formatPatterns (fst (formatPatterns c q)) (snd (formatPatterns c q))
          = formatPatterns c q).
Proof.
  split; [reflexivity|]. split; [reflexivity|].
  intros H. specialize (H ["  "; "   a"] ["   b"]). discriminate H.
Qed.

(** ** makeAbstractedCode *)

(** What one iteration does to the list of finished lines and to the line
    number, when an earlier token has already fixed [previousLine]. *)
Lemma absStep_Ok (ids : list Identifier.t) (st st' : absState)
      (token : Token.t) :
  absStep ids st token = Ok st' ->
  previousLine st <> 0%Z ->
  previousLine st' = Token.line token
  /\ patterns st' =
     if (Token.line token =? previousLine st)%Z then patterns st
     else patterns st ++ [lineContents st].
Proof.
  unfold absStep. intros H Hpl.
  apply bind_Ok_inv in H as (gap & _ & H). inversion H; subst st'; clear H.
  unfold absEnter. simpl.
  destruct (previousLine st =? 0)%Z eqn:H0; [apply Z.eqb_eq in H0; lia|].
  destruct (Token.line token =? previousLine st)%Z eqn:Hl; simpl; split;
    trivial. apply Z.eqb_eq in Hl. congruence.
Qed.

(** The first token never flushes: it only fixes the line number. *)
Lemma absStep_first (ids : list Identifier.t) (st' : absState)
      (token : Token.t) :
  absStep ids absInit token = Ok st' ->
  previousLine st' = Token.line token /\ patterns st' = [].
Proof.
  unfold absStep. intros H.
  apply bind_Ok_inv in H as (gap & _ & H). inversion H; subst st'; clear H.
  unfold absEnter. simpl. rewrite Z.eqb_refl. simpl. auto.
Qed.

Lemma nodup_head_seen (x : Z) (l : list Z) :
  nodup Z.eq_dec (x :: x :: l) = nodup Z.eq_dec (x :: l).
Proof.
  change (nodup Z.eq_dec (x :: x :: l))
    with (if in_dec Z.eq_dec x (x :: l) then nodup Z.eq_dec (x :: l)
          else x :: nodup Z.eq_dec (x :: l)).
  destruct (in_dec Z.eq_dec x (x :: l)) as [_|Hn]; trivial.
  exfalso. apply Hn. now left.
Qed.

Lemma nodup_head_fresh (x : Z) (l : list Z) :
  ~ In x l -> nodup Z.eq_dec (x :: l) = x :: nodup Z.eq_dec l.
Proof.
  intros Hn. simpl. destruct (in_dec Z.eq_dec x l); [contradiction | trivial].
Qed.

(** With the line numbers in order, every change of line is a line never
    seen before, so the loop flushes once per further distinct line. *)
Lemma abs_loop_lines (ids : list Identifier.t) (tokens : list Token.t) :
  forall st r,
    forOf (absStep ids) tokens st = Ok r ->
    previousLine st <> 0%Z ->
    StronglySorted Z.le (previousLine st :: map Token.line tokens) ->
    Forall (fun t => Token.line t <> 0%Z) tokens ->
    List.length (patterns r) + 1
    = List.length (patterns st)
      + List.length (nodup Z.eq_dec (previousLine st :: map Token.line tokens)).
Proof.
  induction tokens as [|t rest IH]; intros st r Hrun Hpl Hsorted Hnz.
  - simpl in Hrun. inversion Hrun; subst r. simpl. lia.
  - simpl in Hrun. apply bind_Ok_inv in Hrun as (st2 & Hstep & Hrun).
    apply absStep_Ok in Hstep as [Hline Hpat]; trivial.
    inversion Hnz as [|? ? Ht Hrest]; subst.
    apply StronglySorted_inv in Hsorted as [Hs Hall].
    specialize (IH st2 r Hrun).
    rewrite Hline in IH. specialize (IH Ht Hs Hrest).
    rewrite IH, Hpat. cbn [map].
    destruct (Token.line t =? previousLine st)%Z eqn:Heq.
    + apply Z.eqb_eq in Heq. rewrite <- Heq, nodup_head_seen. reflexivity.
    + apply Z.eqb_neq in Heq.
      rewrite (nodup_head_fresh (previousLine st)).
      * rewrite length_app. simpl. lia.
      * inversion Hall as [|? ? Hle _]; subst.
        apply StronglySorted_inv in Hs as [_ Hge].
        rewrite Forall_forall in Hge.
        intros [Hin|Hin]; [congruence|].
        specialize (Hge _ Hin). lia.
Qed.

(** *** The lines of the output, one by one *)

Lemma Forall2_weaken {A B : Type} (P Q : A -> B -> Prop) (l : list A)
      (l' : list B) :
  (forall a b, In a l -> P a b -> Q a b) -> Forall2 P l l' -> Forall2 Q l l'.
Proof.
  intros Himp H. induction H as [|a b l l' Hab _ IH]; constructor.
  - apply Himp; [now left | exact Hab].
  - apply IH. intros a' b' Hin. apply Himp. now right.
Qed.

(** A token on the line under construction extends it, whatever lines are
    already finished. *)
Lemma absStep_same_line (ids : list Identifier.t) (st st2 : absState)
      (t : Token.t) :
  absStep ids st t = Ok st2 ->
  previousLine st <> 0%Z -> Token.line t = previousLine st ->
  patterns st2 = patterns st
  /\ previousLine st2 = previousLine st
  /\ absStep ids (openLine st) t = Ok (openLine st2).
Proof.
  unfold absStep, absEnter, openLine. cbn [previousLine previousPosition
    patterns lineContents]. intros H Hpl Hline.
  apply Z.eqb_neq in Hpl. rewrite Hpl in *.
  rewrite Hline, Z.eqb_refl in *. cbn [negb] in *.
  cbn [previousLine previousPosition patterns lineContents] in *.
  destruct (Str.repeat_space _) as [gap|e]; [|discriminate].
  cbn [bind] in *. inversion H; subst st2; clear H. simpl. auto.
Qed.

(** A token on another line closes the line under construction and opens
    its own the way the first token of a stream does. *)
Lemma absStep_new_line (ids : list Identifier.t) (st st2 : absState)
      (t : Token.t) :
  absStep ids st t = Ok st2 ->
  previousLine st <> 0%Z -> Token.line t <> previousLine st ->
  patterns st2 = patterns st ++ [lineContents st]
  /\ previousLine st2 = Token.line t
  /\ absStep ids absInit t = Ok (openLine st2).
Proof.
  unfold absStep, absEnter, openLine, absInit.
  cbn [previousLine previousPosition patterns lineContents].
  intros H Hpl Hline.
  apply Z.eqb_neq in Hpl. rewrite Hpl in *.
  apply Z.eqb_neq in Hline. rewrite Hline in *.
  rewrite !Z.eqb_refl. cbn [negb] in *.
  cbn [previousLine previousPosition patterns lineContents] in *.
  destruct (Str.repeat_space _) as [gap|e]; [|discriminate].
  cbn [bind] in *. inversion H; subst st2; clear H. simpl. auto.
Qed.

Lemma onLine_cons (ln : Z) (t : Token.t) (rest : list Token.t) :
  onLine ln (t :: rest)
  = if (Token.line t =? ln)%Z then t :: onLine ln rest else onLine ln rest.
Proof. reflexivity. Qed.

Lemma abs_loop_by_line (ids : list Identifier.t) (tokens : list Token.t) :
  forall st r,
    forOf (absStep ids) tokens st = Ok r ->
    previousLine st <> 0%Z ->
    StronglySorted Z.le (previousLine st :: map Token.line tokens) ->
    Forall (fun t => Token.line t <> 0%Z) tokens ->
    exists texts,
      patterns r ++ [lineContents r] = patterns st ++ texts
      /\ Forall2 (lineRun ids st tokens)
                 (nodup Z.eq_dec (previousLine st :: map Token.line tokens))
                 texts.
Proof.
  induction tokens as [|t rest IH]; intros st r Hrun Hpl Hsorted Hnz.
  - simpl in Hrun. inversion Hrun; subst r.
    exists [lineContents st]. split; trivial.
    repeat constructor. unfold lineRun. now rewrite Z.eqb_refl.
  - simpl in Hrun. apply bind_Ok_inv in Hrun as (st2 & Hstep & Hrun).
    inversion Hnz as [|? ? Ht Hrest]; subst.
    apply StronglySorted_inv in Hsorted as [Hs Hall].
    destruct (Z.eq_dec (Token.line t) (previousLine st)) as [Heq|Hneq].
    + destruct (absStep_same_line ids st st2 t Hstep Hpl Heq)
        as (Hpat & Hline & Hopen).
      assert (Hpl2 : previousLine st2 <> 0%Z) by now rewrite Hline.
      assert (Hs2 : StronglySorted Z.le
                      (previousLine st2 :: map Token.line rest))
        by (rewrite Hline, <- Heq; exact Hs).
      destruct (IH st2 r Hrun Hpl2 Hs2 Hrest) as (texts & Hfin & Hall2).
      exists texts. rewrite <- Hpat. split; trivial.
      cbn [map]. rewrite Heq, nodup_head_seen. rewrite Hline in Hall2.
      revert Hall2. apply Forall2_weaken. intros ln text _.
      unfold lineRun. rewrite onLine_cons, Hline, Heq.
      rewrite (Z.eqb_sym (previousLine st) ln).
      destruct (ln =? previousLine st)%Z; trivial.
      cbn [forOf]. rewrite Hopen. trivial.
    + destruct (absStep_new_line ids st st2 t Hstep Hpl Hneq)
        as (Hpat & Hline & Hopen).
      assert (Hpl2 : previousLine st2 <> 0%Z) by now rewrite Hline.
      assert (Hs2 : StronglySorted Z.le
                      (previousLine st2 :: map Token.line rest))
        by (rewrite Hline; exact Hs).
      destruct (IH st2 r Hrun Hpl2 Hs2 Hrest) as (texts & Hfin & Hall2).
      assert (Hfresh : ~ In (previousLine st)
                            (Token.line t :: map Token.line rest)).
      { inversion Hall as [|? ? Hle _]; subst.
        apply StronglySorted_inv in Hs as [_ Hge].
        rewrite Forall_forall in Hge.
        intros [Hin|Hin]; [congruence|].
        specialize (Hge _ Hin). lia. }
      exists (lineContents st :: texts). split.
      { rewrite Hfin, Hpat, <- app_assoc. reflexivity. }
      cbn [map]. rewrite (nodup_head_fresh _ _ Hfresh). constructor.
      * unfold lineRun. rewrite Z.eqb_refl.
        assert (Hnone : onLine (previousLine st) (t :: rest) = []).
        { unfold onLine.
          destruct (filter _ (t :: rest)) as [|u us] eqn:Hf; trivial.
          exfalso.
          assert (Hu : In u (onLine (previousLine st) (t :: rest)))
            by (unfold onLine; rewrite Hf; now left).
          apply filter_In in Hu as [Hu Hl]. apply Z.eqb_eq in Hl.
          apply Hfresh. rewrite <- Hl.
          change (In (Token.line u) (map Token.line (t :: rest))).
          now apply in_map. }
        rewrite Hnone. reflexivity.
      * rewrite Hline in Hall2. revert Hall2. apply Forall2_weaken.
        intros ln text Hin. apply nodup_In in Hin.
        assert (Hln : (ln =? previousLine st)%Z = false).
        { apply Z.eqb_neq. intros ->. contradiction. }
        unfold lineRun. rewrite onLine_cons, Hline, Hln.
        rewrite (Z.eqb_sym (Token.line t) ln).
        destruct (ln =? Token.line t)%Z; trivial.
        cbn [forOf]. rewrite Hopen. trivial.
Qed.

Lemma nodup_increasing (l : list Z) :
  StronglySorted Z.le l -> StronglySorted Z.lt (nodup Z.eq_dec l).
Proof.
  induction l as [|x l IH]; intros Hs; simpl; [constructor|].
  apply StronglySorted_inv in Hs as [Hs Hall].
  destruct (in_dec Z.eq_dec x l) as [Hin|Hnin]; [auto|].
  constructor; [auto|].
  apply Forall_forall. intros y Hy. apply nodup_In in Hy.
  rewrite Forall_forall in Hall. specialize (Hall y Hy).
  assert (x <> y) by (intros ->; contradiction). lia.
Qed.

(** On a non-empty stream in line order, the entries of the output are, in
    increasing order of the line values, what the abstractor makes of the
    tokens of each line alone. *)
Lemma makeAbstractedCode_by_line
      (tokens : list Token.t) (ids : list Identifier.t) (out : list string) :
  makeAbstractedCode tokens ids = Ok out ->
  Sorted Z.le (map Token.line tokens) ->
  Forall (fun t => Token.line t <> 0%Z) tokens ->
  tokens <> [] ->
  StronglySorted Z.lt (nodup Z.eq_dec (map Token.line tokens))
  /\ Forall2 (fun ln text =>
                makeAbstractedCode (onLine ln tokens) ids = Ok [text])
             (nodup Z.eq_dec (map Token.line tokens)) out.
Proof.
  unfold makeAbstractedCode. intros H Hsorted Hnz Hne.
  apply Sorted_StronglySorted in Hsorted;
    [|intros x y z Hxy Hyz; now apply Z.le_trans with y].
  split; [now apply nodup_increasing|].
  apply bind_Ok_inv in H as (r & Hrun & Hout).
  inversion Hout; subst out; clear Hout.
  destruct tokens as [|t rest]; [congruence|].
  simpl in Hrun. apply bind_Ok_inv in Hrun as (st2 & Hstep & Hrun).
  destruct (absStep_first ids st2 t Hstep) as [Hline Hpat].
  inversion Hnz as [|? ? Ht Hrest]; subst.
  assert (Hpl2 : previousLine st2 <> 0%Z) by now rewrite Hline.
  assert (Hs2 : StronglySorted Z.le (previousLine st2 :: map Token.line rest))
    by (rewrite Hline; exact Hsorted).
  destruct (abs_loop_by_line ids rest st2 r Hrun Hpl2 Hs2 Hrest)
    as (texts & Hfin & Hall2).
  rewrite Hfin, Hpat. cbn [app map]. rewrite Hline in Hall2.
  revert Hall2. apply Forall2_weaken. intros ln text _.
  unfold lineRun. rewrite onLine_cons, Hline.
  rewrite (Z.eqb_sym (Token.line t) ln).
  assert (Hopen : openLine st2 = st2).
  { destruct st2 as [P pos pl lc]. simpl in Hpat. subst P. reflexivity. }
  destruct (ln =? Token.line t)%Z; trivial.
  cbn [forOf]. rewrite Hstep, Hopen. trivial.
Qed.

Lemma makeAbstractedCode_length
      (tokens : list Token.t) (ids : list Identifier.t) (out : list string) :
  makeAbstractedCode tokens ids = Ok out ->
  Sorted Z.le (map Token.line tokens) ->
  Forall (fun t => Token.line t <> 0%Z) tokens ->
  List.length out = Nat.max 1 (distinctLines tokens).
Proof.
  unfold makeAbstractedCode, distinctLines. intros H Hsorted Hnz.
  apply bind_Ok_inv in H as (r & Hrun & Hout).
  inversion Hout; subst out; clear Hout. rewrite length_app.
  change (List.length [lineContents r]) with 1.
  destruct tokens as [|t rest].
  - simpl in Hrun. inversion Hrun; subst r. reflexivity.
  - simpl in Hrun. apply bind_Ok_inv in Hrun as (st2 & Hstep & Hrun).
    apply absStep_first in Hstep as [Hline Hpat].
    inversion Hnz as [|? ? Ht Hrest]; subst.
    apply Sorted_StronglySorted in Hsorted;
      [|intros x y z Hxy Hyz; now apply Z.le_trans with y].
    pose proof (abs_loop_lines ids rest st2 r Hrun) as Hcount.
    rewrite Hline, Hpat in Hcount. specialize (Hcount Ht Hsorted Hrest).
    cbn [map]. rewrite Hcount.
    assert (Hpos : 1 <= List.length
                    (nodup Z.eq_dec (Token.line t :: map Token.line rest))).
    { assert (Hin : In (Token.line t)
                       (nodup Z.eq_dec (Token.line t :: map Token.line rest)))
        by (apply nodup_In; now left).
      destruct (nodup Z.eq_dec (Token.line t :: map Token.line rest));
        [destruct Hin | simpl; lia]. }
    rewrite Nat.max_r by exact Hpos. reflexivity.
Qed.

(** C3 as amended: on a token stream whose line numbers are non-zero and in
    non-decreasing order, whenever the abstractor returns, its list has one
    entry per distinct line value, in increasing order of the line values,
    each entry being what the abstractor makes of the tokens of that line
    alone; on the empty stream it has the empty string as its single
    entry. *)
Theorem makeAbstractedCode_one_entry_per_line
        (tokens : list Token.t) (ids : list Identifier.t) (out : list string) :
  makeAbstractedCode tokens ids = Ok out ->
  Sorted Z.le (map Token.line tokens) ->
  Forall (fun t => Token.line t <> 0%Z) tokens ->
  List.length out = Nat.max 1 (distinctLines tokens)
  /\ (tokens = [] -> out = [""])
  /\ (tokens <> [] ->
      StronglySorted Z.lt (nodup Z.eq_dec (map Token.line tokens))
      /\ Forall2 (fun ln text =>
                    makeAbstractedCode (onLine ln tokens) ids = Ok [text])
                 (nodup Z.eq_dec (map Token.line tokens)) out).
Proof.
  intros H Hsorted Hnz. split; [|split].
  - now apply (makeAbstractedCode_length tokens ids).
  - intros ->. simpl in H. now inversion H.
  - intros Hne. now apply makeAbstractedCode_by_line.
Qed.

Lemma makeAbstractedCode_one_entry_per_line_witness :
  List.length ["  ${1:entity.name.function}( ${2:variable.other}";
               "if  ${2:variable.other}"]
  = Nat.max 1 (distinctLines Sample.before).
Proof.
  apply (makeAbstractedCode_one_entry_per_line Sample.before Sample.ids).
  - reflexivity.
  - unfold Sample.before. simpl. repeat constructor; lia.
  - unfold Sample.before. repeat constructor; simpl; lia.
Defined.

(** C3 as stated fails on the empty stream: no line value occurs, and the
    abstractor returns the list whose only entry is the empty string. *)
Lemma makeAbstractedCode_empty_counterexample :
  makeAbstractedCode [] [] = Ok [""]
  /\ distinctLines [] = 0
  /\ ~ (forall tokens ids out,
          makeAbstractedCode tokens ids = Ok out ->
          List.length out = distinctLines tokens).
Proof.
  split; [reflexivity|]. split; [reflexivity|].
  intros H. specialize (H [] [] [""] eq_refl). discriminate H.
Qed.

(** *** When the abstractor returns *)

Lemma absStep_ready (ids : list Identifier.t) (st : absState)
      (token : Token.t) :
  Layout.placed token -> ready st token ->
  exists st', absStep ids st token = Ok st'
              /\ previousLine st' = Token.line token
              /\ previousPosition st' = Token.end_ (Token.cols token).
Proof.
  intros [Hline Hstart] Hready. unfold absStep, Str.repeat_space.
  assert (Hgap : (previousPosition (absEnter st token)
                  <= Token.start (Token.cols token))%Z
                 /\ previousLine (absEnter st token) = Token.line token).
  { unfold absEnter, ready in *.
    destruct (previousLine st =? 0)%Z eqn:H0.
    - rewrite Z.eqb_refl. simpl. apply Z.eqb_eq in H0. auto.
    - destruct (Token.line token =? previousLine st)%Z eqn:Hl; simpl; auto.
      apply Z.eqb_eq in Hl. auto. }
  destruct Hgap as [Hgap Hpl].
  destruct (_ <? 0)%Z eqn:Hneg; [apply Z.ltb_lt in Hneg; lia|].
  simpl. eexists. split; [reflexivity|]. simpl. auto.
Qed.

Lemma abs_loop_returns (ids : list Identifier.t) (tokens : list Token.t) :
  forall st,
    Forall Layout.placed tokens -> Layout.chained tokens ->
    match tokens with t :: _ => ready st t | [] => True end ->
    exists r, forOf (absStep ids) tokens st = Ok r.
Proof.
  induction tokens as [|t rest IH]; intros st Hplaced Hchain Hready.
  - now exists st.
  - inversion Hplaced as [|? ? Ht Hrest]; subst.
    destruct (absStep_ready ids st t Ht Hready) as (st' & Hstep & Hl & Hp).
    cbn [forOf]. rewrite Hstep. cbn [bind].
    apply IH; trivial.
    + destruct rest; [exact I | apply Hchain].
    + destruct rest as [|u rest']; trivial.
      destruct Hchain as [Hfollows _]. unfold ready. rewrite Hl, Hp.
      destruct Ht as [Hnz _]. intros [H0|Heq]; [contradiction | auto].
Qed.

Lemma makeAbstractedCode_returns (tokens : list Token.t)
      (ids : list Identifier.t) :
  Layout.laidOut tokens -> exists out, makeAbstractedCode tokens ids = Ok out.
Proof.
  intros [Hplaced Hchain]. unfold makeAbstractedCode.
  destruct (abs_loop_returns ids tokens absInit Hplaced Hchain) as [r Hr].
  - destruct tokens as [|t rest]; trivial.
    inversion Hplaced as [|? ? [_ Hstart] _]; subst.
    intros _. exact Hstart.
  - rewrite Hr. simpl. eauto.
Qed.

Lemma collect_scoped (beforeTokens afterTokens : list Token.t) :
  Layout.scoped beforeTokens ->
  collectCommonIdentifiers beforeTokens afterTokens
  = Ok (Unify.unify beforeTokens afterTokens).
Proof.
  intros Hsc. unfold collectCommonIdentifiers, Unify.unify.
  apply forOf_pure. intros s x Hx. apply collectOuter_scoped.
  unfold Layout.scoped in Hsc. rewrite Forall_forall in Hsc. auto.
Qed.

Lemma makePatterns_returns
      (tokenize : string -> string -> option (list Token.t))
      (before after source : option string) :
  Layout.sound tokenize ->
  exists r, makePatterns tokenize before after source = Ok r.
Proof.
  intros Hsound. unfold makePatterns.
  destruct before as [b|]; [|eauto].
  destruct after as [a|]; [|eauto].
  destruct source as [s|]; [|eauto].
  destruct (tokenize b s) as [bt|] eqn:Hb; [|eauto].
  destruct (tokenize a s) as [at_|] eqn:Ha; [|eauto].
  destruct (Hsound _ _ _ Hb) as [Hbs Hbl].
  destruct (Hsound _ _ _ Ha) as [_ Hal].
  rewrite (collect_scoped bt at_ Hbs). cbn [bind].
  destruct (makeAbstractedCode_returns bt (Unify.unify bt at_) Hbl) as [c ->].
  destruct (makeAbstractedCode_returns at_ (Unify.unify bt at_) Hal) as [q ->].
  cbn [bind]. destruct (formatPatterns c q). eauto.
Qed.

Lemma diff_loop_returns
      (tokenize : string -> string -> option (list Token.t))
      (chunks : list Chunk) :
  Layout.sound tokenize ->
  forall acc, exists ps, forOf (diffStep tokenize) chunks acc = Ok ps.
Proof.
  intros Hsound. induction chunks as [|ch rest IH]; intros acc.
  - now exists acc.
  - cbn [forOf]. unfold diffStep at 1, makePatternsFromChunk.
    destruct (makePatterns_returns tokenize (Some (Str.join (deleted ch)))
                (Some (Str.join (added ch))) (Some (source ch)) Hsound)
      as [r ->].
    cbn [bind]. destruct r as [p|]; [|apply IH].
    destruct (_ && _); apply IH.
Qed.

(** C4 as amended: on token streams laid out as a tokenizer produces them
    (non-zero line numbers, columns from 1, no token starting before the end
    of its predecessor on the same line) whose before-tokens all have an
    innermost scope, unification and abstraction return a value; the
    normalizer returns a value on every input, of the lengths it was given;
    and with a tokenizer that only produces such streams, [makePatterns]
    returns for every argument and [makePatternsFromDiff] returns a pattern
    list for every diff. *)
Theorem core_returns_on_laid_out_streams
        (tokenize : string -> string -> option (list Token.t))
        (makeDiffObj : string -> list Chunk) :
  Layout.sound tokenize ->
  (forall beforeTokens afterTokens,
      Layout.scoped beforeTokens -> Layout.laidOut beforeTokens ->
      Layout.laidOut afterTokens ->
      exists ids c q,
        collectCommonIdentifiers beforeTokens afterTokens = Ok ids
        /\ makeAbstractedCode beforeTokens ids = Ok c
        /\ makeAbstractedCode afterTokens ids = Ok q
        /\ List.length (fst (formatPatterns c q)) = List.length c
        /\ List.length (snd (formatPatterns c q)) = List.length q)
  /\ (forall before after source,
         exists r, makePatterns tokenize before after source = Ok r)
  /\ (forall diff,
         exists ps, makePatternsFromDiff tokenize makeDiffObj diff = Ok ps).
Proof.
  intros Hsound. split; [|split].
  - intros bt at_ Hsc Hbl Hal.
    destruct (makeAbstractedCode_returns bt (Unify.unify bt at_) Hbl)
      as [c Hc].
    destruct (makeAbstractedCode_returns at_ (Unify.unify bt at_) Hal)
      as [q Hq].
    exists (Unify.unify bt at_), c, q.
    rewrite formatPatterns_eq. simpl. rewrite !length_map.
    repeat split; trivial. now apply collect_scoped.
  - intros. now apply makePatterns_returns.
  - intros diff. unfold makePatternsFromDiff. now apply diff_loop_returns.
Qed.

Lemma tokenize1_sound : Layout.sound Sample.tokenize1.
Proof.
  intros text source toks H. unfold Sample.tokenize1 in H.
  inversion H; subst toks; clear H. split.
  - repeat constructor. discriminate.
  - split; [|exact I]. repeat constructor; simpl; lia.
Defined.

Lemma core_returns_on_laid_out_streams_witness :
  exists ps,
    makePatternsFromDiff Sample.tokenize1 Sample.makeDiffObj "diff" = Ok ps.
Proof.
  apply (core_returns_on_laid_out_streams Sample.tokenize1 Sample.makeDiffObj
           tokenize1_sound).
Defined.

(** C4 as stated fails: a token that starts before the cursor makes the
    abstractor ask for a negative number of spaces, and a matching pair of
    tokens without any scope makes the unifier read a property of
    [undefined]. *)
Lemma core_throws_counterexample :
  makeAbstractedCode
    [Sample.tok "a" ["source.js"] 1 1 4; Sample.tok "b" ["source.js"] 1 2 3]
    [] = Throw RangeError
  /\ collectCommonIdentifiers [Sample.tok "a" [] 1 1 2]
                              [Sample.tok "a" [] 1 1 2] = Throw TypeError
  /\ ~ (forall tokens ids, exists out, makeAbstractedCode tokens ids = Ok out).
Proof.
  split; [reflexivity|]. split; [reflexivity|].
  intros H.
  destruct (H [Sample.tok "a" ["source.js"] 1 1 4;
               Sample.tok "b" ["source.js"] 1 2 3] []) as [out Hout].
  discriminate Hout.
Qed.

(** ** makePatternsFromDiff *)

Lemma kept_true (p : Pattern) :
  kept p = true <->
  isEmptyPattern (condition p) = false
  /\ isEmptyPattern (consequent p) = false.
Proof.
  unfold kept. rewrite andb_true_iff, !negb_true_iff. tauto.
Qed.

Lemma diff_loop_Ok
      (tokenize : string -> string -> option (list Token.t))
      (chunks : list Chunk) :
  forall acc ps,
    forOf (diffStep tokenize) chunks acc = Ok ps ->
    exists results,
      Forall2 (fun chunk r => makePatternsFromChunk tokenize chunk = Ok r)
              chunks results
      /\ ps = acc ++ filter kept (defined results).
Proof.
  induction chunks as [|ch rest IH]; intros acc ps H.
  - simpl in H. inversion H; subst ps. exists []. split; [constructor|].
    simpl. now rewrite app_nil_r.
  - cbn [forOf] in H. apply bind_Ok_inv in H as (acc' & Hstep & Hrest).
    unfold diffStep in Hstep.
    apply bind_Ok_inv in Hstep as (r & Hr & Hstep).
    destruct (IH _ _ Hrest) as (results & Hall & Hps).
    exists (r :: results). split; [now constructor|].
    subst ps. destruct r as [p|]; simpl.
    + fold (kept p) in Hstep. destruct (kept p); inversion Hstep; subst acc'.
      * now rewrite <- app_assoc.
      * reflexivity.
    + inversion Hstep; subst acc'. reflexivity.
Qed.

(** C8: the list returned by [makePatternsFromDiff] holds no pattern whose
    condition or whose consequent is the single empty line; it is the list
    of the patterns of the chunks, in chunk order, without the undefined and
    the degenerate ones. *)
Theorem makePatternsFromDiff_drops_degenerate
        (tokenize : string -> string -> option (list Token.t))
        (makeDiffObj : string -> list Chunk)
        (diff : string) (ps : list Pattern) :
  makePatternsFromDiff tokenize makeDiffObj diff = Ok ps ->
  Forall (fun p => isEmptyPattern (condition p) = false
                   /\ isEmptyPattern (consequent p) = false) ps
  /\ exists results,
       Forall2 (fun chunk r => makePatternsFromChunk tokenize chunk = Ok r)
               (makeDiffObj diff) results
       /\ ps = filter kept (defined results).
Proof.
  unfold makePatternsFromDiff. intros H.
  apply diff_loop_Ok in H as (results & Hall & Hps). simpl in Hps.
  split; [|now exists results].
  subst ps. apply Forall_forall. intros p Hp.
  apply filter_In in Hp as [_ Hk]. now apply kept_true.
Qed.

Lemma makePatternsFromDiff_drops_degenerate_witness :
  makePatternsFromDiff Sample.tokenize Sample.makeDiffObj "diff"
  = Ok [Sample.pattern]
  /\ Forall (fun p => isEmptyPattern (condition p) = false
                      /\ isEmptyPattern (consequent p) = false)
            [Sample.pattern].
Proof.
  split; [reflexivity|].
  apply (makePatternsFromDiff_drops_degenerate
           Sample.tokenize Sample.makeDiffObj "diff" [Sample.pattern]).
  reflexivity.
Defined.

(** * Further properties of the code *)

(** ** checkInIdentifiers and isAbstractable *)

Lemma checkFrom_first (k : nat) (ids : list Identifier.t) (token : Token.t)
      (i : nat) :
  checkFrom k ids token = Some i ->
  forall j, j < i - k -> nth_error ids j <> Some (key token).
Proof.
  revert k; induction ids as [|id ids IH]; simpl; intros k H j Hj;
    [discriminate|].
  destruct (_ && _) eqn:Hm.
  - inversion H; subst i. lia.
  - destruct j as [|j]; simpl.
    + intros Heq. inversion Heq; subst id. unfold key in Hm. simpl in Hm.
      now rewrite String.eqb_refl, scope_eqb_refl in Hm.
    + apply (IH (S k) H). lia.
Qed.

Lemma checkInIdentifiers_None (ids : list Identifier.t) (token : Token.t) :
  checkInIdentifiers ids token = None <-> ~ In (key token) ids.
Proof.
  pose proof (checkInIdentifiers_known ids token) as Hk.
  pose proof (known_In ids token) as Hin. fold (key token) in Hin.
  destruct (checkInIdentifiers ids token) as [i|]; simpl in Hk.
  - symmetry in Hk. apply negb_false_iff in Hk. split; [discriminate|].
    intros Hn. exfalso. apply Hn, Hin, Hk.
  - symmetry in Hk. apply negb_true_iff in Hk. split; trivial.
    intros _ Hn. apply Hin in Hn. congruence.
Qed.

(** X1: on any identifier list, duplicates included, [checkInIdentifiers]
    returns the 1-based position of the first entry that has the token's
    value and innermost scope, and [undefined] exactly when no entry has
    them. *)
Theorem checkInIdentifiers_first_match
        (ids : list Identifier.t) (token : Token.t) :
  (checkInIdentifiers ids token = None <-> ~ In (key token) ids)
  /\ forall i, checkInIdentifiers ids token = Some i ->
       1 <= i
       /\ nth_error ids (i - 1) = Some (key token)
       /\ forall j, j < i - 1 -> nth_error ids j <> Some (key token).
Proof.
  split; [apply checkInIdentifiers_None|].
  intros i H. split; [|split].
  - apply checkFrom_Some in H. lia.
  - now apply checkFrom_Some in H.
  - now apply (checkFrom_first 1 ids token i).
Qed.

Lemma checkInIdentifiers_first_match_witness :
  checkInIdentifiers (Sample.ids ++ Sample.ids)
    (Sample.tok "x" ["source.js"; "variable.other"] 2 5 6) = Some 2
  /\ nth_error (Sample.ids ++ Sample.ids) 0
     <> Some (key (Sample.tok "x" ["source.js"; "variable.other"] 2 5 6)).
Proof.
  split; [reflexivity|].
  apply (proj2 (checkInIdentifiers_first_match (Sample.ids ++ Sample.ids)
                  (Sample.tok "x" ["source.js"; "variable.other"] 2 5 6))
               2 eq_refl).
  simpl. lia.
Defined.

Lemma innermost_None (token : Token.t) :
  Token.innermost token = None <-> Token.scopes token = [].
Proof.
  split.
  - intros H. destruct (Token.scopes token) as [|s l] eqn:Hs; trivial.
    destruct (innermost_Some token) as [sc Hsc]; [rewrite Hs; discriminate|].
    congruence.
  - unfold Token.innermost. now intros ->.
Qed.

(** X2: [isAbstractable] is truthy exactly when the value starts with an
    ASCII letter or ends with an ASCII digit and the token has an innermost
    scope containing none of 'keyword', 'builtin', 'storage'; it throws, and
    then a TypeError, exactly when the value is of that kind and the token
    has no scope at all; in every other case it is falsy. *)
Theorem isAbstractable_outcomes (token : Token.t) :
  (isAbstractable token = Ok true <->
   shaped token = true
   /\ exists sc, Token.innermost token = Some sc /\ reservedScope sc = false)
  /\ (forall e, isAbstractable token = Throw e <->
        e = TypeError /\ shaped token = true /\ Token.scopes token = [])
  /\ (isAbstractable token = Ok false <->
      shaped token = false
      \/ exists sc, Token.innermost token = Some sc /\ reservedScope sc = true).
Proof.
  rewrite isAbstractable_eq. fold (shaped token).
  pose proof (innermost_None token) as Hnone.
  destruct (shaped token);
    destruct (Token.innermost token) as [sc|];
    try destruct (reservedScope sc) eqn:Hr; cbn [negb];
    (split; [|split]); try intros e; split; intros H.
  all: try discriminate H.
  all: try (destruct H as (_ & sc' & Hsc & Hr'); congruence).
  all: try (destruct H as (_ & _ & Hs); apply Hnone in Hs; discriminate).
  all: try (destruct H as (_ & Hs & _); discriminate).
  all: try (destruct H as [Hs | (sc' & Hsc & Hr')]; congruence).
  all: try (inversion H; subst e; repeat split; now apply Hnone).
  all: try (destruct H as (-> & _); reflexivity).
  all: try (split; [reflexivity | now exists sc]).
  all: try (right; now exists sc).
  all: try (now left).
  all: try reflexivity.
Qed.

(** ** collectCommonIdentifiers *)

Lemma abstractable_true (token : Token.t) :
  Unify.abstractable token = true <-> isAbstractable token = Ok true.
Proof.
  unfold Unify.abstractable.
  destruct (isAbstractable token) as [[|]|e]; split; congruence.
Qed.

Lemma occursIn_true (afterTokens : list Token.t) (b : Token.t) :
  Unify.occursIn afterTokens b = true <->
  exists a, In a afterTokens /\ key a = key b.
Proof.
  unfold Unify.occursIn. rewrite existsb_exists. unfold Unify.sameKey, key.
  split; intros (a & Hin & H); exists a; split; trivial.
  - apply andb_true_iff in H as [Hv Hs].
    apply String.eqb_eq in Hv. apply scope_eqb_eq in Hs. congruence.
  - inversion H. now rewrite String.eqb_refl, scope_eqb_refl.
Qed.

Lemma step_In (afterTokens : list Token.t) (acc : list Identifier.t)
      (b : Token.t) (id : Identifier.t) :
  In id (Unify.step afterTokens acc b) <->
  In id acc
  \/ (key b = id /\ Unify.occursIn afterTokens b = true
      /\ Unify.abstractable b = true).
Proof.
  unfold Unify.step.
  destruct (Unify.occursIn afterTokens b) eqn:Ho;
    destruct (Unify.known acc b) eqn:Hk;
    destruct (Unify.abstractable b) eqn:Ha; cbn [negb andb].
  all: try (split; [now left | intros [H | (_ & H1 & H2)]; congruence]).
  - split; [now left|]. intros [H | (<- & _)]; trivial.
    now apply known_In in Hk.
  - rewrite in_app_iff. fold (key b). split.
    + intros [H | [<- | []]]; [now left | right; auto].
    + intros [H | (<- & _)]; [now left | right; now left].
Qed.

Lemma fold_step_In (afterTokens beforeTokens : list Token.t)
      (id : Identifier.t) :
  forall acc,
    In id (fold_left (Unify.step afterTokens) beforeTokens acc) <->
    In id acc
    \/ exists b, In b beforeTokens /\ key b = id
                 /\ Unify.occursIn afterTokens b = true
                 /\ Unify.abstractable b = true.
Proof.
  induction beforeTokens as [|t rest IH]; intros acc; simpl.
  - split; [now left | intros [H | (b & [] & _)]; trivial].
  - rewrite IH, step_In. split.
    + intros [[H | (Hk & Ho & Ha)] | (b & Hb & H)].
      * now left.
      * right. exists t. auto.
      * right. exists b. auto.
    + intros [H | (b & [<- | Hb] & Hk & Ho & Ha)].
      * left. now left.
      * left. right. auto.
      * right. exists b. auto.
Qed.

(** X3: when the unifier returns, a value+scope pair is in its list exactly
    when some before-token carries it, some after-token carries it too, and
    [isAbstractable] is truthy on that before-token. *)
Theorem collectCommonIdentifiers_members
        (beforeTokens afterTokens : list Token.t) (ids : list Identifier.t)
        (id : Identifier.t) :
  collectCommonIdentifiers beforeTokens afterTokens = Ok ids ->
  (In id ids <->
   exists b a, In b beforeTokens /\ In a afterTokens
               /\ key b = id /\ key a = id
               /\ isAbstractable b = Ok true).
Proof.
  intros H. apply collect_Ok_from in H. subst ids.
  rewrite fold_step_In. split.
  - intros [[] | (b & Hb & Hk & Ho & Ha)].
    apply occursIn_true in Ho as (a & Hin & Hka).
    apply abstractable_true in Ha.
    exists b, a. repeat split; trivial. congruence.
  - intros (b & a & Hb & Hin & Hk & Hka & Ha). right.
    exists b. repeat split; trivial.
    + apply occursIn_true. exists a. split; trivial. congruence.
    + now apply abstractable_true.
Qed.

Lemma collectCommonIdentifiers_members_witness :
  In (Identifier.mk "x" (Some "variable.other")) Sample.ids <->
  exists b a, In b Sample.before /\ In a Sample.after
              /\ key b = Identifier.mk "x" (Some "variable.other")
              /\ key a = Identifier.mk "x" (Some "variable.other")
              /\ isAbstractable b = Ok true.
Proof.
  apply (collectCommonIdentifiers_members Sample.before Sample.after).
  reflexivity.
Defined.

Lemma checkFrom_key (k : nat) (ids : list Identifier.t) (t t' : Token.t) :
  key t = key t' -> checkFrom k ids t = checkFrom k ids t'.
Proof.
  unfold key. intros H. inversion H as [[Hv Hs]].
  revert k; induction ids as [|id ids IH]; simpl; intros k; trivial.
  now rewrite Hv, Hs, IH.
Qed.

(** X4: when the unifier returns, a before-token on which [isAbstractable]
    is truthy and an after-token with its value and innermost scope are both
    replaced by a placeholder, and the two placeholders are the same text:
    same index, same scope. *)
Theorem shared_tokens_get_one_placeholder
        (beforeTokens afterTokens : list Token.t) (ids : list Identifier.t)
        (b a : Token.t) :
  collectCommonIdentifiers beforeTokens afterTokens = Ok ids ->
  In b beforeTokens -> In a afterTokens -> key b = key a ->
  isAbstractable b = Ok true ->
  exists i,
    checkInIdentifiers ids b = Some i
    /\ checkInIdentifiers ids a = Some i
    /\ tokenText ids b = placeholder i (Token.innermost b)
    /\ tokenText ids a = tokenText ids b.
Proof.
  intros H Hb Ha Hk Habs. apply collect_Ok_from in H. subst ids.
  set (ids := fold_left (Unify.step afterTokens) beforeTokens []).
  assert (Hin : In (key b) ids).
  { apply fold_step_In. right. exists b. repeat split; trivial.
    - apply occursIn_true. now exists a.
    - now apply abstractable_true. }
  destruct (checkInIdentifiers ids b) as [i|] eqn:Hc.
  - assert (Hc' : checkInIdentifiers ids a = Some i).
    { unfold checkInIdentifiers in *.
      now rewrite <- (checkFrom_key 1 ids b a Hk). }
    exists i. unfold tokenText. rewrite Hc, Hc'.
    inversion Hk as [[Hv Hs]]. repeat split; trivial.
  - exfalso. now apply checkInIdentifiers_None in Hc.
Qed.

Lemma shared_tokens_get_one_placeholder_witness :
  exists i,
    checkInIdentifiers Sample.ids
      (Sample.tok "x" ["source.js"; "variable.other"] 2 5 6) = Some i
    /\ checkInIdentifiers Sample.ids
         (Sample.tok "x" ["source.js"; "variable.other"] 1 1 2) = Some i
    /\ tokenText Sample.ids
         (Sample.tok "x" ["source.js"; "variable.other"] 2 5 6)
       = placeholder i (Some "variable.other")
    /\ tokenText Sample.ids
         (Sample.tok "x" ["source.js"; "variable.other"] 1 1 2)
       = tokenText Sample.ids
           (Sample.tok "x" ["source.js"; "variable.other"] 2 5 6).
Proof.
  apply (shared_tokens_get_one_placeholder Sample.before Sample.after
           Sample.ids
           (Sample.tok "x" ["source.js"; "variable.other"] 2 5 6)
           (Sample.tok "x" ["source.js"; "variable.other"] 1 1 2));
    try reflexivity.
  - simpl. do 4 right. now left.
  - simpl. now left.
Defined.

Lemma forOf_ext {A S : Type} (body body' : S -> A -> result S)
      (xs : list A) :
  (forall s x, In x xs -> body s x = body' s x) ->
  forall s, forOf body xs s = forOf body' xs s.
Proof.
  induction xs as [|x xs IH]; simpl; intros H s; trivial.
  rewrite H by auto. destruct (body' s x); simpl; auto.
Qed.

(** X5: the result of the unifier, its exception included, depends on the
    after-tokens only through the set of tokens that occur among them:
    reordering or repeating after-tokens changes nothing. *)
Theorem collectCommonIdentifiers_after_as_set
        (beforeTokens afterTokens afterTokens' : list Token.t) :
  (forall a, In a afterTokens <-> In a afterTokens') ->
  collectCommonIdentifiers beforeTokens afterTokens
  = collectCommonIdentifiers beforeTokens afterTokens'.
Proof.
  intros Hset. unfold collectCommonIdentifiers.
  apply forOf_ext. intros acc b _. rewrite !collectOuter_eq.
  assert (Ho : Unify.occursIn afterTokens b = Unify.occursIn afterTokens' b).
  { apply eq_true_iff_eq. rewrite !occursIn_true.
    split; intros (a & Hin & Hk); exists a; split; trivial; now apply Hset. }
  now rewrite Ho.
Qed.

Lemma collectCommonIdentifiers_after_as_set_witness :
  collectCommonIdentifiers Sample.before Sample.after
  = collectCommonIdentifiers Sample.before
      (rev Sample.after ++ Sample.after).
Proof.
  apply (collectCommonIdentifiers_after_as_set Sample.before Sample.after
           (rev Sample.after ++ Sample.after)).
  intros a. rewrite in_app_iff, <- in_rev. tauto.
Defined.

Lemma collect_no_after (beforeTokens : list Token.t) :
  collectCommonIdentifiers beforeTokens [] = Ok [].
Proof.
  unfold collectCommonIdentifiers.
  rewrite (forOf_pure (fun acc _ => acc)) by reflexivity.
  f_equal. induction beforeTokens; simpl; trivial.
Qed.

(** X6: with no after-token the unifier returns the empty list, whatever
    the before-tokens are, tokens without a scope included; so it does with
    no before-token. *)
Theorem collectCommonIdentifiers_empty_side (tokens : list Token.t) :
  collectCommonIdentifiers tokens [] = Ok []
  /\ collectCommonIdentifiers [] tokens = Ok [].
Proof. split; [apply collect_no_after | reflexivity]. Qed.

Lemma collect_Throw_from (beforeTokens afterTokens : list Token.t) (e : exn) :
  forall acc,
    forOf (collectOuter afterTokens) beforeTokens acc = Throw e ->
    e = TypeError
    /\ exists b, In b beforeTokens /\ Token.scopes b = []
                 /\ shaped b = true
                 /\ Unify.occursIn afterTokens b = true.
Proof.
  induction beforeTokens as [|t rest IH]; simpl; intros acc H;
    [discriminate|].
  destruct (collectOuter afterTokens acc t) as [acc'|e'] eqn:Hstep.
  - simpl in H. destruct (IH acc' H) as (He & b & Hb & Hrest).
    split; trivial. exists b. split; [now right | trivial].
  - simpl in H. inversion H; subst e'; clear H.
    rewrite collectOuter_eq in Hstep.
    destruct (Unify.occursIn afterTokens t) eqn:Ho; [|discriminate].
    destruct (Unify.known acc t); [discriminate|]. cbn [negb andb] in Hstep.
    rewrite isAbstractable_eq in Hstep. fold (shaped t) in Hstep.
    destruct (shaped t) eqn:Hs; [|discriminate].
    destruct (Token.innermost t) eqn:Hin; [discriminate|].
    inversion Hstep. split; trivial.
    exists t. repeat split; auto. now apply innermost_None.
Qed.

(** X7: the only exception of the unifier is a TypeError, and it needs a
    before-token without any scope whose value starts with a letter or ends
    with a digit and whose value occurs on an equally scopeless
    after-token. *)
Theorem collectCommonIdentifiers_throws_only
        (beforeTokens afterTokens : list Token.t) (e : exn) :
  collectCommonIdentifiers beforeTokens afterTokens = Throw e ->
  e = TypeError
  /\ exists b a, In b beforeTokens /\ In a afterTokens
                 /\ Token.scopes b = [] /\ Token.scopes a = []
                 /\ Token.value a = Token.value b
                 /\ shaped b = true.
Proof.
  intros H. apply collect_Throw_from in H as (He & b & Hb & Hsc & Hs & Ho).
  split; trivial.
  apply occursIn_true in Ho as (a & Ha & Hk).
  inversion Hk as [[Hv Hi]].
  exists b, a. repeat split; trivial.
  apply innermost_None. rewrite Hi. now apply innermost_None.
Qed.

Lemma collectCommonIdentifiers_throws_only_witness :
  TypeError = TypeError
  /\ exists b a, In b [Sample.tok "a" [] 1 1 2]
                 /\ In a [Sample.tok "a" [] 1 1 2]
                 /\ Token.scopes b = [] /\ Token.scopes a = []
                 /\ Token.value a = Token.value b
                 /\ shaped b = true.
Proof.
  apply (collectCommonIdentifiers_throws_only
           [Sample.tok "a" [] 1 1 2] [Sample.tok "a" [] 1 1 2]).
  reflexivity.
Defined.

Lemma sameId_eq (x y : Identifier.t) : sameId x y = true <-> x = y.
Proof.
  unfold sameId. rewrite andb_true_iff, String.eqb_eq, scope_eqb_eq.
  destruct x, y; simpl. split; [intros [-> ->] | intros H; inversion H];
    auto.
Qed.

Lemma sameId_sym (x y : Identifier.t) : sameId x y = sameId y x.
Proof.
  apply eq_true_iff_eq. rewrite !sameId_eq. split; congruence.
Qed.

Lemma filter_twice {A : Type} (p q : A -> bool) (l : list A) :
  filter p (filter q l) = filter (fun x => q x && p x) l.
Proof.
  induction l as [|x l IH]; simpl; trivial.
  destruct (q x); simpl; [destruct (p x)|]; now rewrite IH.
Qed.

Lemma known_sameId (acc : list Identifier.t) (b : Token.t) :
  Unify.known acc b = existsb (sameId (key b)) acc.
Proof. reflexivity. Qed.

(** The fold of the unifier, started on [acc], adds the first occurrences
    of the pairs of the eligible before-tokens that [acc] does not hold. *)
Lemma fold_step_firsts (afterTokens beforeTokens : list Token.t) :
  forall acc,
    fold_left (Unify.step afterTokens) beforeTokens acc
    = acc ++ filter (fun y => negb (existsb (sameId y) acc))
               (firsts (map key (filter (eligible afterTokens) beforeTokens))).
Proof.
  induction beforeTokens as [|t rest IH]; intros acc; simpl.
  - now rewrite app_nil_r.
  - rewrite IH. unfold Unify.step, eligible at 2.
    destruct (Unify.occursIn afterTokens t); cbn [andb]; trivial.
    destruct (Unify.abstractable t);
      [|now rewrite andb_false_r].
    rewrite andb_true_r, known_sameId. cbn [map firsts filter].
    destruct (existsb (sameId (key t)) acc) eqn:Hk; cbn [negb].
    + f_equal. rewrite filter_twice. apply filter_ext_in. intros y _.
      destruct (sameId (key t) y) eqn:Hs; cbn [negb andb]; trivial.
      apply sameId_eq in Hs. subst y. now rewrite Hk.
    + rewrite <- app_assoc. cbn [app]. do 2 f_equal.
      rewrite filter_twice. apply filter_ext. intros y.
      rewrite existsb_app. cbn [existsb].
      fold (key t).
      rewrite orb_false_r, negb_orb, (sameId_sym y (key t)).
      apply andb_comm.
Qed.

(** X8: when the unifier returns, its list is the list of the value+scope
    pairs of the before-tokens that occur among the after-tokens and are
    abstractable, in before-token order, each pair kept at its first
    occurrence only. *)
Theorem collectCommonIdentifiers_first_occurrences
        (beforeTokens afterTokens : list Token.t) (ids : list Identifier.t) :
  collectCommonIdentifiers beforeTokens afterTokens = Ok ids ->
  ids = firsts (map key (filter (eligible afterTokens) beforeTokens)).
Proof.
  intros H. apply collect_Ok_from in H. subst ids.
  rewrite fold_step_firsts. cbn [app existsb negb].
  induction (firsts _) as [|x l IH]; simpl; congruence.
Qed.

Lemma collectCommonIdentifiers_first_occurrences_witness :
  Sample.ids = firsts (map key (filter (eligible Sample.after) Sample.before)).
Proof.
  apply (collectCommonIdentifiers_first_occurrences
           Sample.before Sample.after Sample.ids).
  reflexivity.
Defined.

(** ** makeAbstractedCode *)

Lemma forOf_Throw {A S : Type} (body : S -> A -> result S) (xs : list A)
      (e : exn) :
  forall s, forOf body xs s = Throw e ->
            exists pre x post s',
              xs = pre ++ x :: post
              /\ forOf body pre s = Ok s' /\ body s' x = Throw e.
Proof.
  induction xs as [|x xs IH]; simpl; intros s H; [discriminate|].
  destruct (body s x) as [s1|e1] eqn:Hb; simpl in H.
  - destruct (IH s1 H) as (pre & y & post & s' & -> & Hpre & Hthrow).
    exists (x :: pre), y, post, s'. simpl. rewrite Hb. auto.
  - inversion H; subst e1. exists [], x, xs, s. auto.
Qed.

Lemma absStep_Throw (ids : list Identifier.t) (st : absState) (t : Token.t)
      (e : exn) :
  absStep ids st t = Throw e ->
  e = RangeError
  /\ (Token.start (Token.cols t) < previousPosition (absEnter st t))%Z.
Proof.
  unfold absStep, Str.repeat_space. intros H.
  destruct (_ <? 0)%Z eqn:Hneg; [|discriminate].
  simpl in H. inversion H. apply Z.ltb_lt in Hneg. split; [trivial | lia].
Qed.

(** X9: the only exception of the abstractor is a RangeError, tokens
    without a scope included; it is thrown at the first token that starts
    before the cursor the loop has reached (the end of the previous token of
    its line, or column 1), which cannot happen on a laid-out stream. *)
Theorem makeAbstractedCode_throws_only
        (tokens : list Token.t) (ids : list Identifier.t) (e : exn) :
  makeAbstractedCode tokens ids = Throw e ->
  e = RangeError
  /\ (exists pre t post st,
        tokens = pre ++ t :: post
        /\ forOf (absStep ids) pre absInit = Ok st
        /\ (Token.start (Token.cols t)
            < previousPosition (absEnter st t))%Z)
  /\ ~ Layout.laidOut tokens.
Proof.
  intros H.
  assert (Hrun : forOf (absStep ids) tokens absInit = Throw e).
  { unfold makeAbstractedCode in H.
    destruct (forOf (absStep ids) tokens absInit) as [r|e'];
      [discriminate | simpl in H; congruence]. }
  apply forOf_Throw in Hrun as (pre & t & post & st & Hsplit & Hpre & Hstep).
  apply absStep_Throw in Hstep as [He Hlt].
  split; [trivial | split].
  - now exists pre, t, post, st.
  - intros Hlaid.
    destruct (makeAbstractedCode_returns tokens ids Hlaid) as [out Hout].
    congruence.
Qed.

Lemma makeAbstractedCode_throws_only_witness :
  RangeError = RangeError
  /\ (exists pre t post st,
        [Sample.tok "a" [] 1 1 4; Sample.tok "b" [] 1 2 3]
        = pre ++ t :: post
        /\ forOf (absStep []) pre absInit = Ok st
        /\ (Token.start (Token.cols t)
            < previousPosition (absEnter st t))%Z)
  /\ ~ Layout.laidOut [Sample.tok "a" [] 1 1 4; Sample.tok "b" [] 1 2 3].
Proof.
  apply (makeAbstractedCode_throws_only
           [Sample.tok "a" [] 1 1 4; Sample.tok "b" [] 1 2 3] []).
  reflexivity.
Defined.

Lemma absStep_patterns (ids : list Identifier.t) (st st' : absState)
      (t : Token.t) :
  absStep ids st t = Ok st' ->
  patterns st' = patterns st \/ patterns st' = patterns st ++ [lineContents st].
Proof.
  unfold absStep. intros H.
  apply bind_Ok_inv in H as (gap & _ & H). inversion H; subst st'; clear H.
  unfold absEnter. simpl. destruct (negb _); simpl; auto.
Qed.

Lemma abs_loop_patterns_bound (ids : list Identifier.t)
      (tokens : list Token.t) :
  forall st r,
    forOf (absStep ids) tokens st = Ok r ->
    List.length (patterns r) <= List.length (patterns st) + List.length tokens.
Proof.
  induction tokens as [|t rest IH]; simpl; intros st r H.
  - inversion H; subst r. lia.
  - apply bind_Ok_inv in H as (st2 & Hstep & Hrun).
    apply IH in Hrun.
    apply absStep_patterns in Hstep as [Heq | Heq]; rewrite Heq in Hrun;
      rewrite ?length_app in Hrun; simpl in Hrun; lia.
Qed.

Lemma abstracted_length_bound
      (tokens : list Token.t) (ids : list Identifier.t) (out : list string) :
  makeAbstractedCode tokens ids = Ok out ->
  1 <= List.length out <= Nat.max 1 (List.length tokens).
Proof.
  unfold makeAbstractedCode. intros H.
  apply bind_Ok_inv in H as (r & Hrun & Hout).
  inversion Hout; subst out; clear Hout. rewrite length_app.
  change (List.length [lineContents r]) with 1.
  destruct tokens as [|t rest].
  - simpl in Hrun. inversion Hrun; subst r. simpl. lia.
  - simpl in Hrun. apply bind_Ok_inv in Hrun as (st2 & Hstep & Hrun).
    apply absStep_first in Hstep as [_ Hpat].
    apply abs_loop_patterns_bound in Hrun. rewrite Hpat in Hrun.
    cbn [List.length] in *. lia.
Qed.

(** X10: whatever the line numbers and their order, a returned list is
    never empty and never has more entries than there are tokens (one entry
    for no token). *)
Theorem makeAbstractedCode_entries_bound
        (tokens : list Token.t) (ids : list Identifier.t) (out : list string) :
  makeAbstractedCode tokens ids = Ok out ->
  1 <= List.length out <= Nat.max 1 (List.length tokens).
Proof. apply abstracted_length_bound. Qed.

Lemma makeAbstractedCode_entries_bound_witness :
  1 <= List.length ["  ${1:entity.name.function}( ${2:variable.other}";
                    "if  ${2:variable.other}"]
    <= Nat.max 1 (List.length Sample.before).
Proof.
  apply (makeAbstractedCode_entries_bound Sample.before Sample.ids).
  reflexivity.
Defined.

Lemma abs_loop_changes (ids : list Identifier.t) (tokens : list Token.t) :
  forall st r,
    forOf (absStep ids) tokens st = Ok r ->
    previousLine st <> 0%Z ->
    Forall (fun t => Token.line t <> 0%Z) tokens ->
    List.length (patterns r)
    = List.length (patterns st)
      + lineChanges (previousLine st :: map Token.line tokens).
Proof.
  induction tokens as [|t rest IH]; intros st r Hrun Hpl Hnz.
  - simpl in Hrun. inversion Hrun; subst r. simpl. lia.
  - simpl in Hrun. apply bind_Ok_inv in Hrun as (st2 & Hstep & Hrun).
    apply absStep_Ok in Hstep as [Hline Hpat]; trivial.
    inversion Hnz as [|? ? Ht Hrest]; subst.
    specialize (IH st2 r Hrun). rewrite Hline in IH.
    rewrite (IH Ht Hrest), Hpat. cbn [map lineChanges].
    destruct (Token.line t =? previousLine st)%Z.
    + lia.
    + rewrite length_app. simpl. lia.
Qed.

(** X11: on line numbers in any order, none of them 0, a returned list has
    one entry more than there are places in the stream where a token is on
    another line than its predecessor: a line that comes back later gets a
    second entry. *)
Theorem makeAbstractedCode_counts_line_changes
        (tokens : list Token.t) (ids : list Identifier.t) (out : list string) :
  makeAbstractedCode tokens ids = Ok out ->
  Forall (fun t => Token.line t <> 0%Z) tokens ->
  List.length out = 1 + lineChanges (map Token.line tokens).
Proof.
  unfold makeAbstractedCode. intros H Hnz.
  apply bind_Ok_inv in H as (r & Hrun & Hout).
  inversion Hout; subst out; clear Hout. rewrite length_app.
  change (List.length [lineContents r]) with 1.
  destruct tokens as [|t rest].
  - simpl in Hrun. inversion Hrun; subst r. reflexivity.
  - simpl in Hrun. apply bind_Ok_inv in Hrun as (st2 & Hstep & Hrun).
    apply absStep_first in Hstep as [Hline Hpat].
    inversion Hnz as [|? ? Ht Hrest]; subst.
    pose proof (abs_loop_changes ids rest st2 r Hrun) as Hcount.
    rewrite Hline, Hpat in Hcount. specialize (Hcount Ht Hrest).
    cbn [map]. rewrite Hcount. simpl List.length. lia.
Qed.

Lemma makeAbstractedCode_counts_line_changes_witness :
  List.length ["a"; "b"; " c"]
  = 1 + lineChanges
          (map Token.line
               [Sample.tok "a" ["source.js"] 1 1 2;
                Sample.tok "b" ["source.js"] 2 1 2;
                Sample.tok "c" ["source.js"] 1 2 3]).
Proof.
  apply (makeAbstractedCode_counts_line_changes
           [Sample.tok "a" ["source.js"] 1 1 2;
            Sample.tok "b" ["source.js"] 2 1 2;
            Sample.tok "c" ["source.js"] 1 2 3] []).
  - reflexivity.
  - repeat constructor; simpl; lia.
Defined.

(** *** Columns of literal tokens *)

Lemma string_app_assoc (a b c : string) :
  ((a ++ b) ++ c)%string = (a ++ b ++ c)%string.
Proof. induction a; simpl; congruence. Qed.









Lemma onLine_In (ln : Z) (tokens : list Token.t) (t : Token.t) :
  In t (onLine ln tokens) <-> In t tokens /\ Token.line t = ln.
Proof.
  unfold onLine. rewrite filter_In, Z.eqb_eq. tauto.
Qed.



(** ** countSpace and formatPatterns *)

(** X13: [countSpace] returns [Infinity] exactly when every line is empty;
    a finite result is the number of leading spaces of some non-empty line,
    and no non-empty line has fewer. *)
Theorem countSpace_characterisation (lines : list string) :
  (countSpace lines = Infinity <-> forall l, In l lines -> l = "")
  /\ forall n, countSpace lines = Fin n ->
       (forall l, In l lines -> l <> "" -> n <= leadingSpaces l)
       /\ exists l, In l lines /\ l <> "" /\ leadingSpaces l = n.
Proof.
  rewrite countSpace_minLeading. split.
  - rewrite <- minLeading_None.
    destruct (Normal.minLeading lines); simpl; split; congruence.
  - intros n H.
    destruct (Normal.minLeading lines) as [m|] eqn:Hm; simpl in H;
      inversion H; subst m.
    split; [now apply minLeading_bound | now apply minLeading_attained].
Qed.

Lemma map_drop_0 (lines : list string) : map (Str.drop 0) lines = lines.
Proof. apply map_empty_lines. intros. apply drop_0. Qed.

(** X14: when some non-empty line of either side starts in the first
    column, the normalizer returns both sides as they are. *)
Theorem formatPatterns_noop_when_flush_left (c q : list string) :
  (exists l, In l (c ++ q) /\ l <> "" /\ leadingSpaces l = 0) ->
  formatPatterns c q = (c, q).
Proof.
  intros H.
  rewrite (formatPatterns_Some c q 0).
  - now rewrite !map_drop_0.
  - apply commonIndent_unique; [intros; lia | exact H].
Qed.

Lemma formatPatterns_noop_when_flush_left_witness :
  formatPatterns ["if (x) {"; "  y"; ""] ["  z"]
  = (["if (x) {"; "  y"; ""], ["  z"]).
Proof.
  apply (formatPatterns_noop_when_flush_left ["if (x) {"; "  y"; ""] ["  z"]).
  exists "if (x) {". simpl. repeat split; auto. discriminate.
Defined.

Lemma commonIndent_comm (c q : list string) :
  Normal.commonIndent q c = Normal.commonIndent c q.
Proof.
  unfold Normal.commonIndent.
  destruct (Normal.minLeading c), (Normal.minLeading q); trivial.
  now rewrite Nat.min_comm.
Qed.

(** X15: the normalizer treats its two sides alike: exchanging the
    arguments exchanges the results. *)
Theorem formatPatterns_swap (c q : list string) :
  formatPatterns q c = (snd (formatPatterns c q), fst (formatPatterns c q)).
Proof. now rewrite !formatPatterns_eq, commonIndent_comm. Qed.

(** X16: when every non-empty line holds a character that is not a space
    and there is such a line, some line of the normalized pattern starts
    with a character that is not a space. *)
Theorem formatPatterns_reaches_first_column (c q : list string) :
  (forall l, In l (c ++ q) -> l <> "" -> Normal.hasInk l = true) ->
  (exists l, In l (c ++ q) /\ l <> "") ->
  exists l', In l' (fst (formatPatterns c q) ++ snd (formatPatterns c q))
             /\ l' <> "" /\ leadingSpaces l' = 0.
Proof.
  intros Hink (l0 & Hl0 & Hne0).
  destruct (Normal.commonIndent c q) as [n|] eqn:Hn.
  - rewrite (formatPatterns_Some c q n Hn). simpl.
    destruct (commonIndent_attained _ _ _ Hn) as (l & Hl & Hne & Hln).
    exists (Str.drop n l). repeat split.
    + rewrite <- map_app. now apply in_map.
    + subst n. apply hasInk_drop. auto.
    + rewrite leadingSpaces_drop; lia.
  - exfalso. apply Hne0. now apply (proj1 (commonIndent_None c q) Hn).
Qed.

Lemma formatPatterns_reaches_first_column_witness :
  exists l', In l' (fst (formatPatterns ["  a"; ""; "    b"] ["   c"])
                    ++ snd (formatPatterns ["  a"; ""; "    b"] ["   c"]))
             /\ l' <> "" /\ leadingSpaces l' = 0.
Proof.
  apply (formatPatterns_reaches_first_column ["  a"; ""; "    b"] ["   c"]).
  - simpl. intros l H Hne. intuition (subst; try reflexivity; congruence).
  - exists "  a". split; [now left | discriminate].
Defined.

(** ** The drivers *)


Lemma slice_empty (n : count) : slice n "" = "".
Proof. destruct n as [[|n]|]; reflexivity. Qed.

(** X18: when one of the two texts tokenizes to no token at all, a pattern
    that [makePatterns] produces has no identifiers and the single empty
    line on that side, the form that [makePatternsFromDiff] discards. *)
Theorem makePatterns_empty_side_degenerate
        (tokenize : string -> string -> option (list Token.t))
        (b a s : string) (p : Pattern) :
  makePatterns tokenize (Some b) (Some a) (Some s) = Ok (Some p) ->
  tokenize b s = Some [] \/ tokenize a s = Some [] ->
  identifiers p = []
  /\ (tokenize b s = Some [] -> condition p = [""])
  /\ (tokenize a s = Some [] -> consequent p = [""])
  /\ kept p = false.
Proof.
  intros H Hempty.
  apply makePatterns_Some in H
    as (b' & a' & s' & bt & at_ & ids & c & q & Hb' & Ha' & Hs'
        & Hb & Ha & Hids & Hc & Hq & Hf & Hi).
  inversion Hb'; inversion Ha'; inversion Hs'; subst b' a' s'.
  rewrite formatPatterns_eq in Hf. inversion Hf as [[Hcond Hcons]].
  assert (Hno : ids = []).
  { destruct Hempty as [He | He].
    - rewrite He in Hb. inversion Hb; subst bt.
      unfold collectCommonIdentifiers in Hids. simpl in Hids.
      now inversion Hids.
    - rewrite He in Ha. inversion Ha; subst at_.
      rewrite collect_no_after in Hids. now inversion Hids. }
  subst ids.
  assert (H1 : tokenize b s = Some [] -> condition p = [""]).
  { intros He. rewrite He in Hb. inversion Hb; subst bt.
    simpl in Hc. inversion Hc; subst c. rewrite Hcond. simpl.
    now rewrite slice_empty. }
  assert (H2 : tokenize a s = Some [] -> consequent p = [""]).
  { intros He. rewrite He in Ha. inversion Ha; subst at_.
    simpl in Hq. inversion Hq; subst q. rewrite Hcons. simpl.
    now rewrite slice_empty. }
  repeat split; trivial.
  unfold kept. destruct Hempty as [He | He].
  - now rewrite (H1 He).
  - rewrite (H2 He). simpl. apply andb_false_r.
Qed.

Lemma makePatterns_empty_side_degenerate_witness :
  kept (mkPattern [""] [""] []) = false.
Proof.
  apply (makePatterns_empty_side_degenerate Sample.tokenize "" ""
           "javascript" (mkPattern [""] [""] [])).
  - reflexivity.
  - left. reflexivity.
Defined.

Lemma defined_In (results : list (option Pattern)) (p : Pattern) :
  In p (defined results) <-> In (Some p) results.
Proof.
  induction results as [|[p'|] rest IH]; simpl.
  - tauto.
  - rewrite IH. split; intros [H | H]; auto; left; congruence.
  - rewrite IH. split; [auto | intros [H | H]; [discriminate | trivial]].
Qed.

Lemma defined_length (results : list (option Pattern)) :
  List.length (defined results) <= List.length results.
Proof. induction results as [|[p|] rest IH]; simpl; lia. Qed.

Lemma Forall2_In_r {A B : Type} (P : A -> B -> Prop) (l : list A)
      (l' : list B) (y : B) :
  Forall2 P l l' -> In y l' -> exists x, In x l /\ P x y.
Proof.
  intros H. induction H as [|a b l l' Hab _ IH]; simpl; [intros []|].
  intros [<- | Hy]; [now exists a; auto|].
  destruct (IH Hy) as (x & Hx & HP). exists x. auto.
Qed.

(** X19: the list that [makePatternsFromDiff] returns has at most one
    pattern per chunk, and every pattern in it is the defined result of
    [makePatternsFromChunk] on a chunk of the diff. *)
Theorem makePatternsFromDiff_from_chunks
        (tokenize : string -> string -> option (list Token.t))
        (makeDiffObj : string -> list Chunk)
        (diff : string) (ps : list Pattern) :
  makePatternsFromDiff tokenize makeDiffObj diff = Ok ps ->
  List.length ps <= List.length (makeDiffObj diff)
  /\ forall p, In p ps ->
       exists chunk, In chunk (makeDiffObj diff)
                     /\ makePatternsFromChunk tokenize chunk = Ok (Some p).
Proof.
  unfold makePatternsFromDiff. intros H.
  apply diff_loop_Ok in H as (results & Hall & Hps). simpl in Hps. subst ps.
  split.
  - rewrite (Forall2_length Hall).
    pose proof (filter_length_le kept (defined results)).
    pose proof (defined_length results). lia.
  - intros p Hp. apply filter_In in Hp as [Hp _].
    apply defined_In in Hp.
    now apply (Forall2_In_r _ _ _ _ Hall).
Qed.

Lemma makePatternsFromDiff_from_chunks_witness :
  List.length [Sample.pattern] <= List.length (Sample.makeDiffObj "diff")
  /\ forall p, In p [Sample.pattern] ->
       exists chunk, In chunk (Sample.makeDiffObj "diff")
                     /\ makePatternsFromChunk Sample.tokenize chunk
                        = Ok (Some p).
Proof.
  apply (makePatternsFromDiff_from_chunks Sample.tokenize Sample.makeDiffObj
           "diff" [Sample.pattern]).
  reflexivity.
Defined.

Lemma step_length (afterTokens : list Token.t) (acc : list Identifier.t)
      (t : Token.t) :
  List.length (Unify.step afterTokens acc t) <= S (List.length acc).
Proof.
  unfold Unify.step. destruct (_ && _); rewrite ?length_app; simpl; lia.
Qed.

Lemma fold_step_length (afterTokens beforeTokens : list Token.t) :
  forall acc,
    List.length (fold_left (Unify.step afterTokens) beforeTokens acc)
    <= List.length acc + List.length beforeTokens.
Proof.
  induction beforeTokens as [|t rest IH]; simpl; intros acc; [lia|].
  specialize (IH (Unify.step afterTokens acc t)).
  pose proof (step_length afterTokens acc t). lia.
Qed.

(** X20: a pattern that [makePatterns] produces has at least one condition
    line and one consequent line, on each side no more lines than the side
    has tokens (one line for no token), and no more identifiers than there
    are before-tokens. *)
Theorem makePatterns_pattern_size
        (tokenize : string -> string -> option (list Token.t))
        (b a s : string) (p : Pattern) :
  makePatterns tokenize (Some b) (Some a) (Some s) = Ok (Some p) ->
  exists bt at_,
    tokenize b s = Some bt /\ tokenize a s = Some at_
    /\ 1 <= List.length (condition p) <= Nat.max 1 (List.length bt)
    /\ 1 <= List.length (consequent p) <= Nat.max 1 (List.length at_)
    /\ List.length (identifiers p) <= List.length bt.
Proof.
  intros H.
  apply makePatterns_Some in H
    as (b' & a' & s' & bt & at_ & ids & c & q & Hb' & Ha' & Hs'
        & Hb & Ha & Hids & Hc & Hq & Hf & Hi).
  inversion Hb'; inversion Ha'; inversion Hs'; subst b' a' s'.
  rewrite formatPatterns_eq in Hf. inversion Hf as [[Hcond Hcons]].
  exists bt, at_. rewrite Hcond, Hcons, Hi, !length_map.
  apply abstracted_length_bound in Hc. apply abstracted_length_bound in Hq.
  apply collect_Ok_from in Hids. subst ids.
  pose proof (fold_step_length at_ bt []) as Hlen. simpl in Hlen.
  repeat split; trivial; lia.
Qed.

Lemma makePatterns_pattern_size_witness :
  exists bt at_,
    Sample.tokenize (Str.join Sample.beforeLines) "javascript" = Some bt
    /\ Sample.tokenize (Str.join Sample.afterLines) "javascript" = Some at_
    /\ 1 <= List.length (condition Sample.pattern)
       <= Nat.max 1 (List.length bt)
    /\ 1 <= List.length (consequent Sample.pattern)
       <= Nat.max 1 (List.length at_)
    /\ List.length (identifiers Sample.pattern) <= List.length bt.
Proof.
  apply (makePatterns_pattern_size Sample.tokenize
           (Str.join Sample.beforeLines) (Str.join Sample.afterLines)
           "javascript" Sample.pattern).
  reflexivity.
Defined.

Lemma diffStep_contribution
      (tokenize : string -> string -> option (list Token.t))
      (acc : list Pattern) (chunk : Chunk) :
  diffStep tokenize acc chunk
  = (r <- makePatternsFromChunk tokenize chunk ;; Ok (acc ++ contribution r)).
Proof.
  unfold diffStep, contribution.
  destruct (makePatternsFromChunk tokenize chunk) as [[p|]|e]; simpl; trivial.
  - fold (kept p). destruct (kept p); trivial. now rewrite app_nil_r.
  - now rewrite app_nil_r.
Qed.

(** The loop over the chunks only ever appends to what it was given. *)
Lemma diff_loop_acc
      (tokenize : string -> string -> option (list Token.t))
      (chunks : list Chunk) :
  forall acc,
    forOf (diffStep tokenize) chunks acc
    = (ps <- forOf (diffStep tokenize) chunks [] ;; Ok (acc ++ ps)).
Proof.
  induction chunks as [|ch rest IH]; intros acc; simpl.
  - now rewrite app_nil_r.
  - rewrite !diffStep_contribution.
    destruct (makePatternsFromChunk tokenize ch) as [r|e]; simpl; trivial.
    rewrite (IH (acc ++ contribution r)), (IH (contribution r)).
    destruct (forOf (diffStep tokenize) rest []) as [ps|e]; simpl; trivial.
    now rewrite app_assoc.
Qed.

Lemma forOf_chunks_app
      (tokenize : string -> string -> option (list Token.t))
      (cs1 cs2 : list Chunk) :
  forOf (diffStep tokenize) (cs1 ++ cs2) []
  = (ps1 <- forOf (diffStep tokenize) cs1 [] ;;
     ps2 <- forOf (diffStep tokenize) cs2 [] ;;
     Ok (ps1 ++ ps2)).
Proof.
  assert (Happ : forall acc,
             forOf (diffStep tokenize) (cs1 ++ cs2) acc
             = (s <- forOf (diffStep tokenize) cs1 acc ;;
                forOf (diffStep tokenize) cs2 s)).
  { induction cs1 as [|c cs1 IH]; simpl; intros acc; trivial.
    destruct (diffStep tokenize acc c); simpl; auto. }
  rewrite Happ.
  destruct (forOf (diffStep tokenize) cs1 []) as [ps1|e]; simpl; trivial.
  apply diff_loop_acc.
Qed.

(** X21: chunks are processed independently of one another: when the
    chunks of a diff are those of a first diff followed by those of a second
    one, [makePatternsFromDiff] returns the patterns of the first followed
    by the patterns of the second, and throws what the first one throws, or
    else what the second one throws. *)
Theorem makePatternsFromDiff_concatenates
        (tokenize : string -> string -> option (list Token.t))
        (makeDiffObj : string -> list Chunk) (diff diff1 diff2 : string) :
  makeDiffObj diff = makeDiffObj diff1 ++ makeDiffObj diff2 ->
  makePatternsFromDiff tokenize makeDiffObj diff
  = (ps1 <- makePatternsFromDiff tokenize makeDiffObj diff1 ;;
     ps2 <- makePatternsFromDiff tokenize makeDiffObj diff2 ;;
     Ok (ps1 ++ ps2)).
Proof.
  unfold makePatternsFromDiff. intros ->. apply forOf_chunks_app.
Qed.

Lemma makePatternsFromDiff_concatenates_witness :
  makePatternsFromDiff Sample.tokenize Sample.chunksOf "ab"
  = Ok ([Sample.pattern] ++ [Sample.pattern]).
Proof.
  rewrite (makePatternsFromDiff_concatenates Sample.tokenize Sample.chunksOf
             "ab" "a" "b"); reflexivity.
Defined.

(** *** The text of the lines *)

Lemma absStep_renders (ids : list Identifier.t) (st st2 : absState)
      (t : Token.t) (l : Z) :
  absStep ids st t = Ok st2 ->
  l <> 0%Z -> previousLine st = 0%Z \/ previousLine st = l ->
  Token.line t = l ->
  patterns st2 = patterns st
  /\ previousLine st2 = l
  /\ previousPosition st2 = Token.end_ (Token.cols t)
  /\ lineContents st2
     = (lineContents st
        ++ Str.spaces (Z.to_nat (Token.start (Token.cols t)
                                 - previousPosition st))
        ++ tokenText ids t)%string.
Proof.
  unfold absStep, absEnter, Str.repeat_space.
  intros H Hl Hpl Hline. rewrite Hline in H.
  assert (Hsame : (l =? (if (previousLine st =? 0)%Z then l
                         else previousLine st))%Z = true).
  { destruct Hpl as [-> | ->]; simpl; [apply Z.eqb_refl|].
    apply Z.eqb_neq in Hl. rewrite Hl. apply Z.eqb_refl. }
  rewrite Hsame in H. cbn [negb previousPosition patterns previousLine
                           lineContents] in H.
  destruct (_ <? 0)%Z; [discriminate|]. cbn [bind] in H.
  inversion H; subst st2; clear H. simpl. repeat split; trivial.
  destruct Hpl as [-> | ->]; simpl; trivial.
  apply Z.eqb_neq in Hl. now rewrite Hl.
Qed.

Lemma abs_loop_renders (ids : list Identifier.t) (l : Z)
      (tokens : list Token.t) :
  forall st r,
    forOf (absStep ids) tokens st = Ok r ->
    l <> 0%Z -> previousLine st = 0%Z \/ previousLine st = l ->
    Forall (fun t => Token.line t = l) tokens ->
    patterns r = patterns st
    /\ lineContents r
       = (lineContents st
          ++ renderLine ids (previousPosition st) tokens)%string.
Proof.
  induction tokens as [|t rest IH]; intros st r Hrun Hl Hpl Hline.
  - simpl in Hrun. inversion Hrun; subst r. split; trivial.
    simpl. induction (lineContents st); simpl; congruence.
  - simpl in Hrun. apply bind_Ok_inv in Hrun as (st2 & Hstep & Hrun).
    inversion Hline as [|? ? Ht Hrest]; subst.
    destruct (absStep_renders ids st st2 t (Token.line t) Hstep Hl Hpl
                eq_refl) as (Hpat & Hpl2 & Hpos2 & Hlc).
    destruct (IH st2 r Hrun Hl (or_intror Hpl2) Hrest) as [Hpr Htext].
    split; [congruence|].
    rewrite Htext, Hlc, Hpos2. cbn [renderLine].
    now rewrite !string_app_assoc.
Qed.

Lemma Forall2_map_eq {A B : Type} (f : A -> B) (l : list A) (l' : list B) :
  Forall2 (fun x y => y = f x) l l' -> l' = map f l.
Proof. intros H; induction H; simpl; congruence. Qed.

(** X22: on a non-empty stream in line order, a returned list is, line
    value after line value, the text of the tokens of that line: before
    each token as many spaces as there are columns between the end of the
    previous token of the line (column 1 for the first) and its start, then
    its placeholder or its value. *)
Theorem makeAbstractedCode_renders_lines
        (tokens : list Token.t) (ids : list Identifier.t) (out : list string) :
  makeAbstractedCode tokens ids = Ok out ->
  Sorted Z.le (map Token.line tokens) ->
  Forall (fun t => Token.line t <> 0%Z) tokens ->
  tokens <> [] ->
  out = map (fun ln => renderLine ids 1 (onLine ln tokens))
            (nodup Z.eq_dec (map Token.line tokens)).
Proof.
  intros H Hsorted Hnz Hne.
  destruct (makeAbstractedCode_by_line tokens ids out H Hsorted Hnz Hne)
    as [_ Hlines].
  apply Forall2_map_eq. revert Hlines. apply Forall2_weaken.
  intros ln text Hln Hrun.
  apply nodup_In, in_map_iff in Hln as (u & Hu & Huin).
  assert (Hln0 : ln <> 0%Z).
  { rewrite Forall_forall in Hnz. rewrite <- Hu. now apply Hnz. }
  unfold makeAbstractedCode in Hrun.
  apply bind_Ok_inv in Hrun as (r & Hloop & Hout).
  destruct (abs_loop_renders ids ln (onLine ln tokens) absInit r Hloop Hln0)
    as (Hpat & Htext); auto.
  - apply Forall_forall. intros x Hx. now apply onLine_In in Hx.
  - simpl in Hpat, Htext. rewrite Hpat, Htext in Hout. now inversion Hout.
Qed.

Lemma makeAbstractedCode_renders_lines_witness :
  ["  ${1:entity.name.function}( ${2:variable.other}";
   "if  ${2:variable.other}"]
  = map (fun ln => renderLine Sample.ids 1 (onLine ln Sample.before))
        (nodup Z.eq_dec (map Token.line Sample.before)).
Proof.
  apply (makeAbstractedCode_renders_lines Sample.before Sample.ids).
  - reflexivity.
  - unfold Sample.before. simpl. repeat constructor; lia.
  - unfold Sample.before. repeat constructor; simpl; lia.
  - discriminate.
Defined.
